(** * A reactive state container and a deferred-effect wrapper

  Shallow embedding of the demo's JavaScript:
  - the [IO] class and the [memoize] combinator of the IO guides;
  - the reducers ([counterReducer], [addReducer], [rootReducer]),
    the action creators and the two middlewares
    ([loggerMiddleware], [asyncMiddleware]);
  - the store that [store/store.js] builds from them.

  JavaScript computations are functions from a world to an outcome and
  a new world: a value, or a thrown error. *)

From Stdlib Require Import ZArith String List Lia.
From stdpp Require Import gmap.
Import ListNotations.

Local Open Scope string_scope.
Local Open Scope list_scope.

(** ** Computations with a world and exceptions *)

Module JS.

(** What a [throw] carries. *)
Inductive error : Type :=
| TypeError (msg : string)
| Error (msg : string)
| ConfigurationError
| ReentrantDispatchError
| RangeError.

(** How a call ends: [return a] or [throw e]. *)
Inductive outcome (A : Type) : Type :=
| Ok (a : A)
| Exn (e : error).
Arguments Ok {A} a.
Arguments Exn {A} e.

Definition M (W A : Type) : Type := W -> outcome A * W.

Definition ret {W A} (a : A) : M W A := fun w => (Ok a, w).

Definition throw {W A} (e : error) : M W A := fun w => (Exn e, w).

Definition bind {W A B} (c : M W A) (k : A -> M W B) : M W B :=
  fun w =>
    match c w with
    | (Ok a, w') => k a w'
    | (Exn e, w') => (Exn e, w')
    end.

Definition get {W} : M W W := fun w => (Ok w, w).

Definition modify {W} (f : W -> W) : M W unit := fun w => (Ok tt, f w).

(** [try { c } catch (e) { ... }]: the outcome handed to the caller as a
    value. *)
Definition attempt {W A} (c : M W A) : M W (outcome A) :=
  fun w => let (r, w') := c w in (Ok r, w').

(** [try { c } finally { f }] for an [f] that only writes the world. *)
Definition finally {W A} (c : M W A) (f : W -> W) : M W A :=
  fun w => let (r, w') := c w in (r, f w').

Declare Scope js_scope.
Delimit Scope js_scope with js.
Notation "x <- c ;; k" := (bind c (fun x => k))
  (at level 100, c at next level, right associativity) : js_scope.
Notation "c ;; k" := (bind c (fun _ => k))
  (at level 100, right associativity) : js_scope.

End JS.

Import JS.
Local Open Scope js_scope.

(** ** The IO class *)

Module IOMonad.

Section IO.

(** [U] is whatever the wrapped operations act on (the DOM, the clock,
    a counter of a test); [V] is the type of the results [memoize]
    caches. *)
Context {U V : Type}.

(** The two variables a [memoize] call closes over,
    [let cache; let computed = false;]: [Fresh] while [computed] is
    false ([cache] is then never read), [Computed v] once [computed] is
    true and [cache] holds [v]. *)
Inductive cell : Type :=
| Fresh
| Computed (v : V).

Record world : Type := mkWorld { ext : U; cells : gmap nat cell }.

Definition set_cell (l : nat) (c : cell) (w : world) : world :=
  {| ext := ext w; cells := <[l := c]> (cells w) |}.

(** A JavaScript function of no argument. *)
Definition thunk (A : Type) : Type := M world A.

(** An instance: its one field [unsafePerformIO]. *)
Record IO (A : Type) : Type := mkIO { unsafePerformIO : thunk A }.
Arguments mkIO {A} _.
Arguments unsafePerformIO {A} _.

(** What a caller can hand to the constructor. *)
Inductive ctor_arg (A : Type) : Type :=
| Callable (fn : thunk A)
| NotCallable.
Arguments Callable {A} fn.
Arguments NotCallable {A}.

(** [constructor(fn)]. *)
Definition new_IO {A} (fn : ctor_arg A) : M world (IO A) :=
  match fn with
  | NotCallable => throw (TypeError "IO expects a function")
  | Callable f => ret (mkIO f)
  end.

(** [map(f)]: [new IO(() => f(this.unsafePerformIO()))]. *)
Definition map {A B} (this : IO A) (f : A -> M world B) : M world (IO B) :=
  new_IO (Callable (a <- unsafePerformIO this ;; f a)).

(** [chain(f)]:
    [new IO(() => f(this.unsafePerformIO()).unsafePerformIO())]. *)
Definition chain {A B} (this : IO A) (f : A -> M world (IO B))
  : M world (IO B) :=
  new_IO (Callable (a <- unsafePerformIO this ;;
                    io <- f a ;;
                    unsafePerformIO io)).

(** [ap(io)]: [this.chain(f => io.map(f))]. *)
Definition ap {A B} (this : IO (A -> M world B)) (io : IO A)
  : M world (IO B) :=
  chain this (fun f => map io f).

(** [static of(value)]: [new IO(() => value)]. *)
Definition IO_of {A} (value : A) : M world (IO A) :=
  new_IO (Callable (ret value)).

(** The call [io.unsafePerformIO()], the spec's [run]. *)
Definition run {A} (io : IO A) : M world A := unsafePerformIO io.

(** The closure [memoize] returns, over the variables at [l]. *)
Definition memoized (l : nat) (io : IO V) : thunk V :=
  fun w =>
    match cells w !! l with
    | Some (Computed v) => (Ok v, w)
    | _ =>
        match unsafePerformIO io w with
        | (Ok v, w') => (Ok v, set_cell l (Computed v) w')
        | (Exn e, w') => (Exn e, w')
        end
    end.

(** [memoize(io)]: fresh [cache] and [computed], and the closure. *)
Definition memoize (io : IO V) : M world (IO V) :=
  fun w =>
    let l := fresh (dom (cells w)) in
    new_IO (Callable (memoized l io))
           (set_cell l Fresh w).

(** [n] calls of [io.unsafePerformIO()] in a row, each in a [try], and
    how each ended, in order. *)
Fixpoint run_each {A} (n : nat) (io : IO A) : M world (list (outcome A)) :=
  match n with
  | O => ret []
  | S n' => r <- attempt (run io) ;; rest <- run_each n' io ;; ret (r :: rest)
  end.

End IO.

Arguments world : clear implicits.
Arguments IO : clear implicits.
Arguments thunk : clear implicits.
Arguments cell : clear implicits.
Arguments ctor_arg : clear implicits.
Arguments mkIO {U V A} _.
Arguments unsafePerformIO {U V A} _.
Arguments Callable {U V A} fn.
Arguments NotCallable {U V A}.
Arguments Fresh {V}.
Arguments Computed {V} v.

(** The side-effect counter of a test, as the outside world: an
    operation that increments it and returns its new value, and one that
    increments it and throws. *)
Definition tick {V} : thunk nat V nat :=
  fun w => (Ok (S (ext w)), {| ext := S (ext w); cells := cells w |}).

Definition tick_throw {V A} : thunk nat V A :=
  fun w => (Exn (Error "boom"), {| ext := S (ext w); cells := cells w |}).

(** The world a test starts in: the counter at [0], no [memoize] called
    yet. *)
Definition w0 : world nat nat := {| ext := 0; cells := ∅ |}.

End IOMonad.

(** ** Procedures, actions and the console *)

Module Redux.

Section Container.

(** The type of the state the container holds. *)
Context {State : Type}.

(** One argument of a [console.log] call. *)
Inductive logarg (A : Type) : Type :=
| LStr (s : string)
| LValue (a : A)
| LState (s : State)
| LNext
| LStore.
Arguments LStr {A} s.
Arguments LValue {A} a.
Arguments LState {A} s.
Arguments LNext {A}.
Arguments LStore {A}.

(** What a call of [dispatch] returns: the state the transition step
    produced, or what a procedure returned. *)
Inductive dresult : Type :=
| NewState (s : State)
| Undefined.

(** The body of a JavaScript function that has a store's [dispatch] and
    [getState] in scope, as the tree of what it does with them; [A] is
    the type of the values it passes around. A [Dispatch] hands the
    call's outcome to the rest of the body, which is how a body that
    catches the error and one that lets it escape ([dispatch_] below)
    differ. *)
Inductive prog (A R : Type) : Type :=
| Return (r : R)
| Throw (e : error)
| GetState (k : State -> prog A R)
| Dispatch (a : A) (k : outcome dresult -> prog A R)
| ConsoleLog (args : list (logarg A)) (k : prog A R)
| SetTimeout (callback : A) (ms : nat) (k : prog A R).
Arguments Return {A R} r.
Arguments Throw {A R} e.
Arguments GetState {A R} k.
Arguments Dispatch {A R} a k.
Arguments ConsoleLog {A R} args k.
Arguments SetTimeout {A R} callback ms k.

(** The values this code passes to [dispatch]: an object with its [type]
    field (absent: [None]; no other field is ever read), a string, or a
    function. *)
#[warnings="-register-all"]
Inductive value : Type :=
| Object (type : option string)
| Str (s : string)
| Function (body : prog value unit).

(** [dispatch(a)] outside any [try]: an error escapes. *)
Definition dispatch_ {R} (a : value) (k : prog value R) : prog value R :=
  Dispatch a (fun r => match r with Ok _ => k | Exn e => Throw e end).

(** Sequencing of bodies. *)
Fixpoint pbind {A R R'} (p : prog A R) (f : R -> prog A R') : prog A R' :=
  match p with
  | Return r => f r
  | Throw e => Throw e
  | GetState k => GetState (fun s => pbind (k s) f)
  | Dispatch a k => Dispatch a (fun r => pbind (k r) f)
  | ConsoleLog args k => ConsoleLog args (pbind k f)
  | SetTimeout cb ms k => SetTimeout cb ms (pbind k f)
  end.

(** Modelled from the spec: the mutable part of the state container
    ([createStore] is imported from the redux package, which is not part
    of the sources): the state, the subscribers in registration order
    and the flag of the re-entrancy guard; with it, the console and the
    pending timers of the page the container runs in. *)
Record container : Type := mkContainer {
  state : State;
  listeners : list (prog value unit);
  isDispatching : bool;
  console : list (list (logarg value));
  timers : list (nat * value)
}.

Definition set_state (s : State) (c : container) : container :=
  {| state := s; listeners := listeners c; isDispatching := isDispatching c;
     console := console c; timers := timers c |}.

Definition set_isDispatching (b : bool) (c : container) : container :=
  {| state := state c; listeners := listeners c; isDispatching := b;
     console := console c; timers := timers c |}.

Definition add_listener (l : prog value unit) (c : container) : container :=
  {| state := state c; listeners := listeners c ++ [l];
     isDispatching := isDispatching c;
     console := console c; timers := timers c |}.

Definition add_console (args : list (logarg value)) (c : container)
  : container :=
  {| state := state c; listeners := listeners c;
     isDispatching := isDispatching c;
     console := console c ++ [args]; timers := timers c |}.

Definition add_timer (cb : value) (ms : nat) (c : container) : container :=
  {| state := state c; listeners := listeners c;
     isDispatching := isDispatching c;
     console := console c; timers := timers c ++ [(ms, cb)] |}.

Definition set_timers (ts : list (nat * value)) (c : container) : container :=
  {| state := state c; listeners := listeners c;
     isDispatching := isDispatching c;
     console := console c; timers := ts |}.

(** [console.log(...args)]. *)
Definition console_log (args : list (logarg value)) : M container unit :=
  modify (add_console args).

(** [setTimeout(cb, ms)]. *)
Definition setTimeout (cb : value) (ms : nat) : M container unit :=
  modify (add_timer cb ms).

(** The [store] object a middleware receives. *)
Record api : Type := mkApi {
  getState : M container State;
  dispatch : value -> M container dresult
}.

(** Running a body against a store. *)
Fixpoint invoke {R} (store : api) (p : prog value R) : M container R :=
  match p with
  | Return r => ret r
  | Throw e => throw e
  | GetState k => s <- getState store ;; invoke store (k s)
  | Dispatch a k => r <- attempt (dispatch store a) ;; invoke store (k r)
  | ConsoleLog args k => console_log args ;; invoke store k
  | SetTimeout cb ms k => setTimeout cb ms ;; invoke store k
  end.

(** A call [f(dispatch, getState)] or [f()] of a value. *)
Definition call (store : api) (f : value) : M container dresult :=
  match f with
  | Function body => invoke store body ;; ret Undefined
  | _ => throw (TypeError "not a function")
  end.

(** *** The middlewares *)

Definition dispatchFn : Type := value -> M container dresult.

Definition middleware : Type := api -> dispatchFn -> dispatchFn.

(** [middleware/loggerMiddleware.js]. *)
Definition loggerMiddleware : middleware := fun store next action =>
  console_log [LStr "Logger Middleware🍎:"] ;;
  console_log [LStr "Action🍎:"; LValue action] ;;
  before <- getState store ;;
  console_log [LStr "Before State🍎:"; LState before] ;;
  console_log [LStr "next🍎:"; LNext] ;;
  result <- next action ;;
  after <- getState store ;;
  console_log [LStr "After State🍎:"; LState after] ;;
  console_log [LStr "---"] ;;
  ret result.

(** [middleware/asyncMiddleware.js]. *)
Definition asyncMiddleware : middleware := fun store next action =>
  match action with
  | Function _ =>
      console_log [LStr "Async Middleware🍌:"; LStore; LNext; LValue action] ;;
      console_log [LStr "Async Middleware: 检测到函数action，执行异步操作"] ;;
      call store action
  | _ => next action
  end.

(** The lines the logger writes before it calls [next] and after [next]
    has returned, and a container with lines added to its console. *)
Definition logger_entry_lines (action : value) (before : State)
  : list (list (logarg value)) :=
  [ [LStr "Logger Middleware🍎:"];
    [LStr "Action🍎:"; LValue action];
    [LStr "Before State🍎:"; LState before];
    [LStr "next🍎:"; LNext] ].

Definition logger_exit_lines (after : State) : list (list (logarg value)) :=
  [ [LStr "After State🍎:"; LState after]; [LStr "---"] ].

Definition add_lines (lines : list (list (logarg value))) (c : container)
  : container :=
  {| state := state c; listeners := listeners c;
     isDispatching := isDispatching c;
     console := console c ++ lines; timers := timers c |}.

(** [typeof action === 'function']. *)
Definition is_function (action : value) : bool :=
  match action with
  | Function _ => true
  | _ => false
  end.

(** A command: an object or a function, not a bare string. *)
Definition is_command (action : value) : bool :=
  match action with
  | Str _ => false
  | _ => true
  end.

(** A body that lets no error escape: it has no [throw] of its own on
    any path, whatever [getState] and [dispatch] hand it (it catches
    what [dispatch] throws). *)
Inductive nothrow {R} : prog value R -> Prop :=
| nothrow_Return r : nothrow (Return r)
| nothrow_GetState k : (forall s, nothrow (k s)) -> nothrow (GetState k)
| nothrow_Dispatch a k : (forall r, nothrow (k r)) -> nothrow (Dispatch a k)
| nothrow_ConsoleLog args k : nothrow k -> nothrow (ConsoleLog args k)
| nothrow_SetTimeout cb ms k : nothrow k -> nothrow (SetTimeout cb ms k).

(** What a body returns when it is a computation on its arguments alone:
    it may log and set timers, and neither reads the store, dispatches
    nor throws. *)
Fixpoint result_of {A R} (p : prog A R) : option R :=
  match p with
  | Return r => Some r
  | ConsoleLog _ k => result_of k
  | SetTimeout _ _ k => result_of k
  | Throw _ => None
  | GetState _ => None
  | Dispatch _ _ => None
  end.

(** A transition function applied to the commands of a list in turn, by
    hand: [f(f(f(s, a1), a2), ...)]. *)
Fixpoint replay {A R} (f : R -> A -> prog A R) (s : R)
  (actions : list A) : option R :=
  match actions with
  | [] => Some s
  | a :: rest =>
      match result_of (f s a) with
      | Some s' => replay f s' rest
      | None => None
      end
  end.

(** [compose] of the middleware guide in [App.js]:
    [fns.reduceRight((acc, fn) => fn(acc), x)]. *)
Definition compose {X} (fns : list (X -> X)) (x : X) : X :=
  fold_right (fun fn acc => fn acc) x fns.

(** [applyMiddleware] of the middleware guide in [App.js]: the
    middlewares bound to the store and folded into one wrapper of the
    terminal step. *)
Definition applyMiddleware (middlewares : list middleware) (store : api)
  : dispatchFn -> dispatchFn :=
  match middlewares with
  | [] => fun dispatch => dispatch
  | [m] => m store
  | m :: ms =>
      fold_left (fun a b => fun next => a (b next))
                (List.map (fun middleware => middleware store) ms)
                (m store)
  end.

(** *** The container *)

(** Modelled from the spec: what the state container is constructed
    from and keeps unchanged afterwards ([createStore] is imported from
    the redux package, which is not part of the sources): the transition
    function and the interceptors, in their order. A transition function
    is a body too (the demo's [counterReducer] logs). *)
Record config : Type := mkConfig {
  reducer : State -> value -> prog value State;
  middlewares : list middleware
}.

(** Modelled from the spec: the notification pass of the state container
    ([createStore] is imported from the redux package, which is not part
    of the sources). The subscribers of the snapshot are called in
    registration order; a callback that throws ends the pass and the
    error goes to the caller of [dispatch]. *)
Fixpoint notify (store : api) (snapshot : list (prog value unit))
  : M container unit :=
  match snapshot with
  | [] => ret tt
  | l :: rest => invoke store l ;; notify store rest
  end.

(** Modelled from the spec: the terminal step [T] of the state container
    (not part of the sources, see [notify]). It applies the transition
    function, stores the state it returns, notifies a snapshot of the
    subscribers and returns the new state; when the transition function
    throws, the state keeps its value and nobody is notified. *)
Definition terminal (store : api)
  (reducer : State -> value -> prog value State) : dispatchFn :=
  fun action =>
    current <- getState store ;;
    next <- invoke store (reducer current action) ;;
    modify (set_state next) ;;
    snapshot <- (c <- get ;; ret (listeners c)) ;;
    notify store snapshot ;;
    ret (NewState next).

(** Modelled from the spec: [getState()] of the state container (not
    part of the sources, see [notify]): the current state, at any
    time. *)
Definition container_getState : M container State :=
  c <- get ;; ret (state c).

(** Modelled from the spec: [dispatch(command)] of the state container
    (not part of the sources, see [notify]). A call made while another
    dispatch on the container is in progress fails with
    [ReentrantDispatchError] and changes nothing; otherwise the command
    goes through the compiled chain, the container being in progress
    until the chain returns or throws. The [dispatch] the interceptors,
    the transition function and the subscribers hold is this function
    again; [depth] bounds how deep such calls may nest, as the call stack
    does ([RangeError]). *)
Fixpoint container_dispatch (cfg : config) (depth : nat) (action : value)
  : M container dresult :=
  fun c =>
    if isDispatching c then (Exn ReentrantDispatchError, c)
    else
      match depth with
      | O => (Exn RangeError, c)
      | S depth' =>
          let store := {| getState := container_getState;
                          dispatch := container_dispatch cfg depth' |} in
          finally
            (applyMiddleware (middlewares cfg) store
               (terminal store (reducer cfg)) action)
            (set_isDispatching false)
            (set_isDispatching true c)
      end.

(** Modelled from the spec: the store object callers hold (not part of
    the sources, see [notify]): [getState] and [dispatch]. *)
Definition store_of (cfg : config) (depth : nat) : api :=
  {| getState := container_getState;
     dispatch := container_dispatch cfg depth |}.

(** Modelled from the spec: [create(initialState, transitionFunction,
    interceptorFactories)] of the state container (not part of the
    sources, see [notify]); [ConfigurationError] when the transition
    function is absent. *)
Definition create (initialState : State)
  (transitionFunction : option (State -> value -> prog value State))
  (interceptorFactories : list middleware)
  : outcome (config * container) :=
  match transitionFunction with
  | None => Exn ConfigurationError
  | Some f =>
      Ok ({| reducer := f; middlewares := interceptorFactories |},
          {| state := initialState; listeners := []; isDispatching := false;
             console := []; timers := [] |})
  end.

(** Modelled from the spec: [subscribe(callback)] of the state container
    (not part of the sources, see [notify]); the callback joins the end
    of the subscriber list. *)
Definition subscribe (callback : prog value unit) : M container unit :=
  modify (add_listener callback).

(** What a body run inside a dispatch can change of a container: it may
    add lines to the console and timers to the page, nothing else. *)
Definition quiet (c c' : container) : Prop :=
  state c' = state c
  /\ listeners c' = listeners c
  /\ isDispatching c' = isDispatching c
  /\ (exists lines, console c' = console c ++ lines)
  /\ (exists ts, timers c' = timers c ++ ts).

(** A store whose [getState] is the container's and whose [dispatch]
    refuses a call made inside a dispatch. *)
Definition guarded (store : api) : Prop :=
  getState store = container_getState
  /\ forall a c, isDispatching c = true ->
                 dispatch store a c = (Exn ReentrantDispatchError, c).

(** The store as a body run inside a dispatch finds it: [getState] is
    the container's, and every call of [dispatch] throws
    [ReentrantDispatchError] and changes nothing. *)
Definition refusing : api :=
  {| getState := container_getState;
     dispatch := fun _ => throw ReentrantDispatchError |}.

(** The timer facility of the page: the oldest pending callback runs, at
    top level. *)
Definition fire_timer (store : api) : M container unit :=
  c <- get ;;
  match timers c with
  | [] => ret tt
  | (_, cb) :: rest => modify (set_timers rest) ;; call store cb ;; ret tt
  end.

(** Commands dispatched one after the other, each call returning before
    the next; an error of one does not stop the caller. *)
Fixpoint dispatch_all (store : api) (actions : list value)
  : M container unit :=
  match actions with
  | [] => ret tt
  | a :: rest => attempt (dispatch store a) ;; dispatch_all store rest
  end.

End Container.

Arguments LStr {State A} s.
Arguments LValue {State A} a.
Arguments LState {State A} s.
Arguments LNext {State A}.
Arguments LStore {State A}.
Arguments NewState {State} s.
Arguments Undefined {State}.
Arguments Return {State A R} r.
Arguments Throw {State A R} e.
Arguments GetState {State A R} k.
Arguments Dispatch {State A R} a k.
Arguments ConsoleLog {State A R} args k.
Arguments SetTimeout {State A R} callback ms k.
Arguments Object {State} type.
Arguments Str {State} s.
Arguments Function {State} body.
Arguments nothrow_Return {State R} r.
Arguments logarg : clear implicits.
Arguments dresult : clear implicits.
Arguments prog : clear implicits.
Arguments value : clear implicits.
Arguments container : clear implicits.
Arguments api : clear implicits.
Arguments dispatchFn : clear implicits.
Arguments middleware : clear implicits.
Arguments config : clear implicits.

End Redux.

(** ** The demo: reducers, action creators and the store *)

Module CounterReducer.

(** [count] is a JavaScript number; the integers the demo reaches are
    exact, so it is an integer here. *)
Record state : Type := mkState {
  count : Z;
  loading : bool;
  lastAction : option string
}.

Definition initialState : state :=
  {| count := 0; loading := false; lastAction := None |}.

End CounterReducer.

Module AddReducer.

Record state : Type := mkState { count : Z }.

Definition initialState : state := {| count := 0 |}.

End AddReducer.

Module Demo.

Import Redux.

(** The state [rootReducer] produces: one field per registered reducer. *)
Record rootState : Type := mkRootState {
  counter : CounterReducer.state;
  add : AddReducer.state
}.

Abbreviation action := (value rootState).
Abbreviation body := (prog rootState (value rootState)).

(** [action.type]: the field of an object; a string or a function has
    none. *)
Definition type_of (a : action) : option string :=
  match a with
  | Object t => t
  | Str _ => None
  | Function _ => None
  end.

(** [reducers/counterReducer.js]. A parameter with a default value is an
    [option]: [None] for a missing ([undefined]) argument. *)
Definition counterReducer (state : option CounterReducer.state)
  (action : action) : body CounterReducer.state :=
  let state := default CounterReducer.initialState state in
  ConsoleLog [LStr "Reducer called with action:"; LValue action]
    (Return
       match type_of action with
       | Some t =>
           if String.eqb t "INCREMENT" then
             {| CounterReducer.count := CounterReducer.count state + 1;
                CounterReducer.loading := CounterReducer.loading state;
                CounterReducer.lastAction := Some "INCREMENT" |}
           else if String.eqb t "DECREMENT" then
             {| CounterReducer.count := CounterReducer.count state - 1;
                CounterReducer.loading := CounterReducer.loading state;
                CounterReducer.lastAction := Some "DECREMENT" |}
           else if String.eqb t "RESET" then
             {| CounterReducer.count := 0;
                CounterReducer.loading := CounterReducer.loading state;
                CounterReducer.lastAction := Some "RESET" |}
           else if String.eqb t "INCREMENT_ASYNC" then
             {| CounterReducer.count := CounterReducer.count state;
                CounterReducer.loading := true;
                CounterReducer.lastAction := Some "INCREMENT_ASYNC_START" |}
           else state
       | None => state
       end).

(** [reducers/addReducer.js]. Its [switch] is on the second argument
    itself, which [===] compares with the two strings. *)
Definition addReducer (state : option AddReducer.state) (type : action)
  : body AddReducer.state :=
  let state := default AddReducer.initialState state in
  Return
    match type with
    | Str s =>
        if String.eqb s "ADD-TWO" then
          {| AddReducer.count := AddReducer.count state + 2 |}
        else if String.eqb s "ADD-FOUR" then
          {| AddReducer.count := AddReducer.count state + 4 |}
        else state
    | Object _ => state
    | Function _ => state
    end.

(** Modelled from the spec: [combineReducers] for an object of two
    reducers (it is imported from the redux package, which is not part
    of the sources). The state is a map from field name to value, only
    ever produced by the transition function: each field is what the
    reducer registered under it returns for that field and the
    command, in the order of registration. *)
Definition combineReducers {S A B}
  (mk : A -> B -> S) (field1 : S -> A) (field2 : S -> B)
  (reducer1 : option A -> action -> body A)
  (reducer2 : option B -> action -> body B)
  (state : option S) (action : action) : body S :=
  pbind (reducer1 (option_map field1 state) action) (fun a =>
  pbind (reducer2 (option_map field2 state) action) (fun b =>
  Return (mk a b))).

(** [reducers/index.js]. *)
Definition rootReducer : option rootState -> action -> body rootState :=
  combineReducers mkRootState counter add counterReducer addReducer.

(** A tag that is none of the four [counterReducer] has a case for. *)
Definition unrecognized (t : string) : Prop :=
  t <> "INCREMENT" /\ t <> "DECREMENT" /\ t <> "RESET"
  /\ t <> "INCREMENT_ASYNC".

(** [actions/counterActions.js]. *)
Definition INCREMENT : string := "INCREMENT".
Definition DECREMENT : string := "DECREMENT".
Definition RESET : string := "RESET".
Definition INCREMENT_ASYNC : string := "INCREMENT_ASYNC".

Definition increment : action := Object (Some INCREMENT).
Definition decrement : action := Object (Some DECREMENT).
Definition reset : action := Object (Some RESET).
Definition incrementAsync : action := Object (Some INCREMENT_ASYNC).

Definition incrementAsyncThunk : action :=
  Function
    (GetState (fun s =>
     ConsoleLog [LStr "当前状态:"; LState s]
       (SetTimeout (Function (dispatch_ increment (Return tt))) 1000
          (Return tt)))).

(** The state the reducers give a store created without one: their
    default parameters. *)
Definition initialRootState : rootState :=
  {| counter := CounterReducer.initialState;
     add := AddReducer.initialState |}.

(** The subscriber of [store/store.js]. *)
Definition storeListener : body unit :=
  GetState (fun s =>
  ConsoleLog [LStr "Store updated! Current state:"; LState s] (Return tt)).

(** [store/store.js]: the container over [rootReducer] with the logger
    and then the async middleware, and its first subscriber. The file
    passes no initial state: the container starts from what the
    reducers return for a missing one. *)
Definition store : outcome (config rootState * container rootState) :=
  match
    create initialRootState
           (Some (fun s a => rootReducer (Some s) a))
           [loggerMiddleware; asyncMiddleware]
  with
  | Ok (cfg, c) =>
      Ok (cfg,
          snd ((console_log [LStr "Store🍎:"; LStore] ;;
                subscribe storeListener) c))
  | Exn e => Exn e
  end.

Definition storeConfig : config rootState :=
  {| reducer := fun s a => rootReducer (Some s) a;
     middlewares := [loggerMiddleware; asyncMiddleware] |}.

Definition storeContainer : container rootState :=
  {| state := initialRootState;
     listeners := [storeListener];
     isDispatching := false;
     console := [[LStr "Store🍎:"; LStore]];
     timers := [] |}.

End Demo.

(** ** A container whose transition function and subscriber call
    [dispatch] *)

Module Reentrant.

Import Redux.

(** A transition function that dispatches the command it was given
    again, in a [try], and then counts it. *)
Definition eagerReducer (s : nat) (a : value nat) : prog nat (value nat) nat :=
  Dispatch a (fun _ => Return (S s)).

(** A subscriber that dispatches a command, in a [try], and logs when the
    call threw. *)
Definition eagerListener : prog nat (value nat) unit :=
  Dispatch (Object (Some "AGAIN"))
    (fun r =>
       match r with
       | Ok _ => Return tt
       | Exn _ => ConsoleLog [LStr "dispatch threw"] (Return tt)
       end).

(** A transition function that dispatches the command it was given
    again outside any [try], and then counts it. *)
Definition carelessReducer (s : nat) (a : value nat)
  : prog nat (value nat) nat :=
  dispatch_ a (Return (S s)).

Definition carelessConfig : config nat :=
  {| reducer := carelessReducer;
     middlewares := [loggerMiddleware; asyncMiddleware] |}.

Definition eagerConfig : config nat :=
  {| reducer := eagerReducer;
     middlewares := [loggerMiddleware; asyncMiddleware] |}.

Definition eagerContainer : container nat :=
  {| state := 0; listeners := [eagerListener]; isDispatching := false;
     console := []; timers := [] |}.

End Reentrant.

(** ** The utilities of the IO guides *)

Module IOUtils.

Import IOMonad.

Section Utils.

Context {U V : Type}.

(** [composeIO(io1, io2)]:
    [io1.chain(result1 => io2.map(result2 => [result1, result2]))]. *)
Definition composeIO {A B} (io1 : IO U V A) (io2 : IO U V B)
  : M (world U V) (IO U V (A * B)) :=
  chain io1 (fun result1 => map io2 (fun result2 => ret (result1, result2))).

(** The [for] loop of [retry] with [remaining] turns to go: a turn
    returns what the operation returns, or keeps the error it threw in
    [lastError] and goes on; after the last turn, [throw lastError].
    [lastError] is [undefined] until a turn has thrown; [error] has no
    constructor for that value, which is the parameter [undefined]. *)
Fixpoint retry_loop {A} (undefined : error) (remaining : nat) (io : IO U V A)
  (lastError : option error) : thunk U V A :=
  match remaining with
  | O => throw (default undefined lastError)
  | S remaining' =>
      fun w =>
        match unsafePerformIO io w with
        | (Ok a, w') => (Ok a, w')
        | (Exn e, w') => retry_loop undefined remaining' io (Some e) w'
        end
  end.

(** [retry(times, io)]. *)
Definition retry {A} (undefined : error) (times : nat) (io : IO U V A)
  : M (world U V) (IO U V A) :=
  new_IO (Callable (retry_loop undefined times io None)).

(** [ios.map(io => io.unsafePerformIO())]. *)
Fixpoint run_all {A} (ios : list (IO U V A)) : thunk U V (list A) :=
  match ios with
  | [] => ret []
  | io :: rest =>
      a <- unsafePerformIO io ;; others <- run_all rest ;; ret (a :: others)
  end.

(** [batch(...ios)]: [new IO(() => ios.map(io => io.unsafePerformIO()))]. *)
Definition batch {A} (ios : list (IO U V A)) : M (world U V) (IO U V (list A)) :=
  new_IO (Callable (run_all ios)).

(** How a run ended: with a [throw]. *)
Definition threw {A} (r : outcome A) : Prop :=
  match r with
  | Exn _ => True
  | Ok _ => False
  end.

(** The error of the last run of a row that threw, [undefined] for an
    empty row. *)
Definition last_error {A} (undefined : error) (rs : list (outcome A)) : error :=
  match List.last rs (Exn undefined) with
  | Exn e => e
  | Ok _ => undefined
  end.

(** *** ReaderIO *)

(** The object [ReaderIO(run)] builds, by its [run] field; [Env] is the
    environment the readers are run in. *)
Record ReaderIO (Env A : Type) : Type := mkReaderIO {
  reader_run : Env -> M (world U V) A
}.
Arguments mkReaderIO {Env A} _.
Arguments reader_run {Env A} _ _.

(** [map: f => ReaderIO(env => f(run(env)))]. *)
Definition reader_map {Env A B} (this : ReaderIO Env A)
  (f : A -> M (world U V) B) : ReaderIO Env B :=
  mkReaderIO (fun env => a <- reader_run this env ;; f a).

(** [chain: f => ReaderIO(env => f(run(env)).run(env))]. *)
Definition reader_chain {Env A B} (this : ReaderIO Env A)
  (f : A -> M (world U V) (ReaderIO Env B)) : ReaderIO Env B :=
  mkReaderIO (fun env =>
                a <- reader_run this env ;;
                r <- f a ;;
                reader_run r env).

End Utils.

Arguments ReaderIO : clear implicits.
Arguments mkReaderIO {U V Env A} _.
Arguments reader_run {U V Env A} _ _.

(** An operation on the counter of a test that throws on its first [n]
    executions and returns the count from then on. *)
Definition fails_until {V} (n : nat) : thunk nat V nat :=
  fun w =>
    if Nat.ltb (ext w) n
    then (Exn (Error "not yet"), {| ext := S (ext w); cells := cells w |})
    else (Ok (S (ext w)), {| ext := S (ext w); cells := cells w |}).

End IOUtils.

(** ** The middleware guide of [App.js] *)

Module MiddlewareGuide.

Import Redux.

Section Guide.

Context {State : Type}.

(** [middleware1] and [middleware2] of the guide's functional
    middleware. *)
Definition middleware1 : dispatchFn State -> dispatchFn State :=
  fun next action =>
    console_log [LStr "Before 1"] ;;
    result <- next action ;;
    console_log [LStr "After 1"] ;;
    ret result.

Definition middleware2 : dispatchFn State -> dispatchFn State :=
  fun next action =>
    console_log [LStr "Before 2"] ;;
    result <- next action ;;
    console_log [LStr "After 2"] ;;
    ret result.

(** [const chain = compose(middleware1, middleware2)]. *)
Definition chain : dispatchFn State -> dispatchFn State :=
  compose [middleware1; middleware2].

(** [conditionalMiddleware(condition, middleware)]: the state is read,
    then [condition] is called with the action and it. *)
Definition conditionalMiddleware
  (condition : value State -> State -> M (container State) bool)
  (middleware : Redux.middleware State) : Redux.middleware State :=
  fun store next action =>
    s <- getState store ;;
    holds <- condition action s ;;
    if holds then middleware store next action else next action.

End Guide.

End MiddlewareGuide.

(** ** The counter component *)

Module Counter.

Import Redux Demo.

(** The props [mapStateToProps] gives the component. *)
Record props : Type := mkProps {
  count : Z;
  loading : bool;
  lastAction : option string
}.

(** [mapStateToProps] of [components/Counter.js]. *)
Definition mapStateToProps (state : rootState) : props :=
  {| count := CounterReducer.count (counter state);
     loading := CounterReducer.loading (counter state);
     lastAction := CounterReducer.lastAction (counter state) |}.

(** The keys of [mapDispatchToProps], which the four buttons have as
    [onClick], and the timer of the page running out. *)
Inductive event : Type :=
| Click_increment
| Click_decrement
| Click_reset
| Click_incrementAsync
| Timer_fires.

(** [mapDispatchToProps] of [components/Counter.js]: the action creator
    under each key. *)
Definition mapDispatchToProps (e : event) : option action :=
  match e with
  | Click_increment => Some increment
  | Click_decrement => Some decrement
  | Click_reset => Some reset
  | Click_incrementAsync => Some incrementAsyncThunk
  | Timer_fires => None
  end.

(** One event of the page: a click dispatches what the action creator
    under its key returns (the binding to [dispatch] is that of
    [connect], imported from the react-redux package); an error is the
    event handler's and stops nothing. *)
Definition handle (store : api rootState) (e : event)
  : M (container rootState) unit :=
  match mapDispatchToProps e with
  | Some a => attempt (dispatch store a) ;; ret tt
  | None => attempt (fire_timer store) ;; ret tt
  end.

Fixpoint handle_all (store : api rootState) (es : list event)
  : M (container rootState) unit :=
  match es with
  | [] => ret tt
  | e :: rest => handle store e ;; handle_all store rest
  end.

(** The callback [incrementAsyncThunk] hands to [setTimeout]. *)
Definition timer_callback : action :=
  Function (dispatch_ increment (Return tt)).

(** [action.type === t]. *)
Definition has_type (t : string) (a : action) : bool :=
  match type_of a with
  | Some t' => String.eqb t' t
  | None => false
  end.

(** The store of [store/store.js] at some point of its life: its one
    subscriber, no dispatch in progress. *)
Definition store_at (s : rootState) (lines : list (list (logarg rootState action)))
  (ts : list (nat * action)) : container rootState :=
  {| state := s; listeners := [storeListener]; isDispatching := false;
     console := lines; timers := ts |}.

(** The state after an increment, and after a decrement. *)
Definition incremented (s : rootState) : rootState :=
  {| counter :=
       {| CounterReducer.count := CounterReducer.count (counter s) + 1;
          CounterReducer.loading := CounterReducer.loading (counter s);
          CounterReducer.lastAction := Some "INCREMENT" |};
     add := add s |}.

Definition decremented (s : rootState) : rootState :=
  {| counter :=
       {| CounterReducer.count := CounterReducer.count (counter s) - 1;
          CounterReducer.loading := CounterReducer.loading (counter s);
          CounterReducer.lastAction := Some "DECREMENT" |};
     add := add s |}.

(** [Number.MAX_SAFE_INTEGER], 2^53 - 1: the integers up to it in
    absolute value are JavaScript numbers, and [+ 1] and [- 1] that stay
    among them are exact; there [count] as an integer is the count of
    the code. *)
Definition MAX_SAFE_INTEGER : Z := 9007199254740991.

(** How many commands of a list have the type [t]. *)
Definition occurrences (t : string) (actions : list action) : Z :=
  Z.of_nat (length (List.filter (has_type t) actions)).

(** What the page relies on between two events: the store is idle, has
    its one subscriber, is not loading, and every pending timer holds
    the callback of [incrementAsyncThunk]. *)
Definition page_invariant (c : container rootState) : Prop :=
  isDispatching c = false
  /\ listeners c = [storeListener]
  /\ CounterReducer.loading (counter (state c)) = false
  /\ Forall (fun t => snd t = timer_callback) (timers c).

End Counter.

(** ** The chain of responsibility of the middleware guide *)

Module Chain.

Section Chain.

(** The context handed to [execute], and what middlewares return. *)
Context {Ctx R : Type}.

(** The body of a middleware [(context, next) => ...] with no [try]
    around its calls of [next]: what it does with [next] and the
    console, and what it returns ([None]: [undefined]). *)
Inductive body : Type :=
| Done (r : option R)
| Fail (e : error)
| Say (line : string) (k : body)
| CallNext (k : option R -> body).

Definition middleware : Type := Ctx -> body.

(** An instance, by its field [middlewares]. *)
Record MiddlewareChain : Type := mkChain { middlewares : list middleware }.

(** [constructor()]. *)
Definition new_MiddlewareChain : MiddlewareChain := {| middlewares := [] |}.

(** [use(middleware)]: [push], and [return this]. *)
Definition use (this : MiddlewareChain) (m : middleware) : MiddlewareChain :=
  {| middlewares := middlewares this ++ [m] |}.

(** The variable [index] of a call of [execute], and the console. *)
Record frame : Type := mkFrame { index : nat; console : list string }.

Definition bump (st : frame) : frame :=
  {| index := S (index st); console := console st |}.

Definition say (line : string) (st : frame) : frame :=
  {| index := index st; console := console st ++ [line] |}.

(** Running a body whose [next] is [nxt]. *)
Fixpoint run_body (nxt : M frame (option R)) (b : body) : M frame (option R) :=
  match b with
  | Done r => ret r
  | Fail e => throw e
  | Say line k => modify (say line) ;; run_body nxt k
  | CallNext k => r <- nxt ;; run_body nxt (k r)
  end.

(** The closure [next] of [execute]: below the length, the middleware at
    [index] is called with [context] and [next], [index] incremented
    first; at the length, [undefined]. [depth] bounds how deep calls of
    [next] may nest, as the call stack does. *)
Fixpoint next (depth : nat) (ms : list middleware) (context : Ctx)
  : M frame (option R) :=
  fun st =>
    if Nat.ltb (index st) (length ms) then
      match depth with
      | O => (Exn RangeError, st)
      | S depth' =>
          match nth_error ms (index st) with
          | Some m => run_body (next depth' ms context) (m context) (bump st)
          | None =>
              (Exn (TypeError "middleware is not a function"), bump st)
          end
      end
    else (Ok None, st).

(** [execute(context)], on a console: [let index = 0; return next()].
    Calls of [next] nest no deeper than there are middlewares. *)
Definition execute (this : MiddlewareChain) (context : Ctx)
  : M (list string) (option R) :=
  fun lines =>
    let (r, st) := next (length (middlewares this)) (middlewares this) context
                     {| index := 0; console := lines |} in
    (r, console st).

(** A middleware that logs, calls [next] and logs again, and returns
    what [next] returned; one that logs and returns without calling
    [next]; one that calls [next] twice and returns what the second
    call returned. *)
Definition around (lines : string * string) : middleware :=
  fun _ => Say (fst lines) (CallNext (fun r => Say (snd lines) (Done r))).

Definition handler (line : string) (r : option R) : middleware :=
  fun _ => Say line (Done r).

Definition twice : middleware :=
  fun _ => CallNext (fun _ => CallNext (fun r => Done r)).

End Chain.

Arguments body : clear implicits.
Arguments middleware : clear implicits.
Arguments MiddlewareChain : clear implicits.
Arguments new_MiddlewareChain {Ctx R}.
Arguments twice {Ctx R}.
Arguments around {Ctx R} lines.

End Chain.

(** * Theorems *)

(** ** The monad of computations *)

Module JSLaws.

Lemma bind_ret_l {W A B} (a : A) (k : A -> M W B) w :
  bind (ret a) k w = k a w.
Proof. reflexivity. Qed.

Lemma bind_assoc {W A B C} (c : M W A) (f : A -> M W B) (g : B -> M W C) w :
  bind (bind c f) g w = bind c (fun a => bind (f a) g) w.
Proof. unfold bind. destruct (c w) as [[a|e] w']; reflexivity. Qed.

Lemma bind_throw {W A B} (e : error) (k : A -> M W B) w :
  bind (throw e) k w = (Exn e, w).
Proof. reflexivity. Qed.

End JSLaws.

(** ** The deferred effect *)

Module IOLaws.

Import IOMonad.

Section Laws.

Context {U V : Type}.

Implicit Types w : world U V.

(** The constructor called on a function returns, and touches nothing. *)
Lemma new_IO_callable {A} (fn : thunk U V A) w :
  new_IO (Callable fn) w = (Ok (mkIO fn), w).
Proof. reflexivity. Qed.

Lemma run_mkIO {A} (fn : thunk U V A) : run (mkIO fn) = fn.
Proof. reflexivity. Qed.

(** C3 (effect laziness). Building [new IO(fn).map(f).chain(g)], and so
    [IO.of(x).map(f).chain(g)], returns an instance and leaves the world
    as it was, whatever [fn], [f] and [g] do when called: none of them
    is called before [unsafePerformIO], which then calls [fn], [f], [g]
    and the effect [g] returned, in that order. A counter that the
    wrapped operation increments keeps its value through the
    construction and is incremented by the run. *)
Theorem effect_laziness :
  (forall A B C (fn : thunk U V A) (f : A -> M (world U V) B)
          (g : B -> M (world U V) (IO U V C)) w,
      exists io,
        (e0 <- new_IO (Callable fn) ;; e1 <- map e0 f ;; chain e1 g) w
        = (Ok io, w)
        /\ forall w', run io w'
                      = (a <- fn ;; b <- f a ;; e <- g b ;; run e) w')
  /\ (forall A B C (x : A) (f : A -> M (world U V) B)
             (g : B -> M (world U V) (IO U V C)) w,
      exists io,
        (e0 <- IO_of x ;; e1 <- map e0 f ;; chain e1 g) w = (Ok io, w)
        /\ forall w', run io w' = (b <- f x ;; e <- g b ;; run e) w')
  /\ (forall (w : world nat V),
      exists io,
        (e0 <- new_IO (Callable tick) ;;
         e1 <- map e0 (fun n => ret n) ;;
         chain e1 (fun n => IO_of n)) w = (Ok io, w)
        /\ ext (snd (run io w)) = S (ext w)).
Proof.
  split; [|split].
  - intros A B C fn f g w. eexists. split; [reflexivity|].
    intros w'. unfold run; cbn. unfold bind.
    destruct (fn w') as [[a|e] w1]; reflexivity.
  - intros A B C x f g w. eexists. split; [reflexivity|].
    intros w'. reflexivity.
  - intros w. eexists. split; reflexivity.
Qed.

(** C4 (chain associativity). From any world, running
    [e.chain(f).chain(g)] and running [e.chain(x => f(x).chain(g))] end
    the same way (same value or same error) in the same world: the same
    operations ran, as often and in the same order. *)
Theorem chain_assoc {A B C} (e : IO U V A)
  (f : A -> M (world U V) (IO U V B)) (g : B -> M (world U V) (IO U V C)) w :
  (e1 <- chain e f ;; e2 <- chain e1 g ;; run e2) w
  = (e' <- chain e (fun x => e1 <- f x ;; chain e1 g) ;; run e') w.
Proof.
  unfold chain, run; cbn. unfold bind.
  destruct (unsafePerformIO e w) as [[a|err] w1]; [|reflexivity].
  destruct (f a w1) as [[e1|err] w2]; [|reflexivity].
  cbn. reflexivity.
Qed.

(** C6 (no implicit memoization). An instance built from [fn] runs [fn]
    and nothing else at each [unsafePerformIO]: two runs are two
    executions of [fn], the second from the world the first left. With
    the counting operation, [n] runs count [n]. *)
Theorem no_implicit_memoization :
  (forall A (fn : thunk U V A) w,
      exists io,
        new_IO (Callable fn) w = (Ok io, w)
        /\ (forall w', run io w' = fn w')
        /\ (forall w', (a <- run io ;; b <- run io ;; ret (a, b)) w'
                       = (a <- fn ;; b <- fn ;; ret (a, b)) w'))
  /\ (forall n (w : world nat V),
        ext (snd (run_each n (mkIO tick) w)) = n + ext w).
Proof.
  split.
  - intros A fn w. exists (mkIO fn). repeat split.
  - induction n as [|n IH]; intros w; [reflexivity|].
    cbn. unfold bind, attempt, run; cbn.
    specialize (IH {| ext := S (ext w); cells := cells w |}).
    destruct (run_each n (mkIO tick) _) as [[rs|e] w1]; cbn in *; lia.
Qed.

(** A run of the closure of [memoize] whose variables are fresh runs the
    wrapped operation, and keeps its value when it returns one. *)
Lemma memoized_fresh l (e : IO U V V) w :
  cells w !! l = Some Fresh ->
  memoized l e w =
    match run e w with
    | (Ok v, w') => (Ok v, set_cell l (Computed v) w')
    | (Exn x, w') => (Exn x, w')
    end.
Proof. intros H. unfold memoized. rewrite H. reflexivity. Qed.

(** Once the value is kept, a run returns it and does nothing else. *)
Lemma memoized_computed l (e : IO U V V) v w :
  cells w !! l = Some (Computed v) -> memoized l e w = (Ok v, w).
Proof. intros H. unfold memoized. rewrite H. reflexivity. Qed.

Lemma run_each_computed l (e : IO U V V) v n w :
  cells w !! l = Some (Computed v) ->
  run_each n (mkIO (memoized l e)) w = (Ok (repeat (Ok v) n), w).
Proof.
  intros H. induction n as [|n IH]; [reflexivity|].
  cbn. unfold bind, attempt, run; cbn.
  rewrite (memoized_computed l e v w H), IH. reflexivity.
Qed.

Lemma lookup_set_cell l (c : cell V) w : cells (set_cell l c w) !! l = Some c.
Proof. apply lookup_insert_eq. Qed.

(** C5, amended. [memoize(e)] returns an instance over fresh variables.
    While they are fresh a run executes the operation of [e]: when that
    returns [v], this run and every later one return [v], and the world
    after any number of runs is the one that single execution left, with
    [v] kept; when it throws, the error reaches the caller and nothing
    is kept. *)
Theorem memoize_caches_first_return (e : IO U V V) w :
  let l := fresh (dom (cells w)) in
  exists m,
    memoize e w = (Ok m, set_cell l Fresh w)
    /\ (forall w1 v w2 n,
          cells w1 !! l = Some Fresh ->
          run e w1 = (Ok v, w2) ->
          run_each (S n) m w1
          = (Ok (repeat (Ok v) (S n)), set_cell l (Computed v) w2))
    /\ (forall w1 x w2,
          cells w1 !! l = Some Fresh ->
          run e w1 = (Exn x, w2) ->
          run m w1 = (Exn x, w2)).
Proof.
  intros l. exists (mkIO (memoized l e)). split; [reflexivity|]. split.
  - intros w1 v w2 n Hl He.
    change (run_each (S n) (mkIO (memoized l e)) w1)
      with (bind (attempt (memoized l e))
              (fun r => bind (run_each n (mkIO (memoized l e)))
                          (fun rest => ret (r :: rest))) w1).
    unfold bind at 1. unfold attempt.
    rewrite (memoized_fresh l e w1 Hl), He.
    unfold bind.
    rewrite (run_each_computed l e v n _ (lookup_set_cell l _ w2)).
    reflexivity.
  - intros w1 x w2 Hl He. unfold run; cbn.
    rewrite (memoized_fresh l e w1 Hl), He. reflexivity.
Qed.

End Laws.

(** C5, as stated, fails: memoizing the operation that counts and throws
    and running the result twice executes the operation twice. *)
Lemma memoize_reruns_after_throw :
  exists m w1 rs w2,
    memoize (mkIO tick_throw) w0 = (Ok m, w1)
    /\ run_each 2 m w1 = (Ok rs, w2)
    /\ rs = [Exn (Error "boom"); Exn (Error "boom")]
    /\ ext w2 = 2.
Proof.
  set (l := fresh (dom (cells w0))).
  assert (Hm : forall w : world nat nat, cells w !! l = Some Fresh ->
            memoized l (mkIO tick_throw) w
            = (Exn (Error "boom"), {| ext := S (ext w); cells := cells w |})).
  { intros w H. rewrite (memoized_fresh l _ w H). reflexivity. }
  exists (mkIO (memoized l (mkIO tick_throw))), (set_cell l Fresh w0).
  do 2 eexists. split; [reflexivity|].
  cbn [run_each]. unfold bind, attempt, run.
  cbn [unsafePerformIO].
  rewrite (Hm _ (lookup_set_cell l Fresh w0)).
  rewrite (Hm {| ext := S (ext (set_cell l Fresh w0));
                 cells := cells (set_cell l Fresh w0) |}
              (lookup_set_cell l Fresh w0)).
  cbn. repeat split.
Qed.

(** The amended statement at the counting operation, run three times. *)
Lemma memoize_caches_first_return_witness :
  exists m,
    memoize (mkIO tick) w0
    = (Ok m, set_cell (fresh (dom (cells w0))) Fresh w0)
    /\ run_each 3 m (set_cell (fresh (dom (cells w0))) Fresh w0)
       = (Ok [Ok 1; Ok 1; Ok 1],
          set_cell (fresh (dom (cells w0))) (Computed 1)
            {| ext := 1;
               cells := cells (set_cell (fresh (dom (cells w0))) Fresh w0) |}).
Proof.
  destruct (memoize_caches_first_return (mkIO tick) w0) as (m & Hm & Hok & _).
  exists m. split; [exact Hm|].
  apply (Hok _ 1 _ 2).
  - apply lookup_set_cell.
  - reflexivity.
Defined.

End IOLaws.

(** ** The container and its interceptors *)

Module ReduxLaws.

Import Redux.

Section Laws.

Context {State : Type}.

Implicit Types c : container State.
Implicit Types store : api State.
Implicit Types a action : value State.

(** One step of a body: a [console.log] or a [setTimeout] and the rest. *)
Ltac body_step := unfold bind, console_log, setTimeout, modify.

Create HintDb quiet discriminated.

Lemma quiet_refl c : quiet c c.
Proof.
  repeat split; try reflexivity; exists []; symmetry; apply app_nil_r.
Qed.

Lemma quiet_trans c1 c2 c3 : quiet c1 c2 -> quiet c2 c3 -> quiet c1 c3.
Proof.
  intros (Hs & Hl & Hd & [l1 Hc] & [t1 Ht]) (Hs' & Hl' & Hd' & [l2 Hc'] & [t2 Ht']).
  repeat split; try congruence.
  - exists (l1 ++ l2). rewrite Hc', Hc. symmetry. apply app_assoc.
  - exists (t1 ++ t2). rewrite Ht', Ht. symmetry. apply app_assoc.
Qed.

Lemma quiet_add_console args c : quiet c (add_console args c).
Proof.
  repeat split; try reflexivity; [exists [args] | exists []]; cbn;
    [reflexivity | symmetry; apply app_nil_r].
Qed.

Lemma quiet_add_timer cb ms c : quiet c (add_timer cb ms c).
Proof.
  repeat split; try reflexivity; [exists [] | exists [(ms, cb)]]; cbn;
    [symmetry; apply app_nil_r | reflexivity].
Qed.

#[local] Hint Resolve quiet_refl quiet_add_console quiet_add_timer : quiet.

(** The guard: a call made while a dispatch is in progress fails and
    changes nothing, at any depth. *)
Lemma container_dispatch_in_progress (cfg : config State) depth a c :
  isDispatching c = true ->
  container_dispatch cfg depth a c = (Exn ReentrantDispatchError, c).
Proof. intros H. destruct depth; cbn; rewrite H; reflexivity. Qed.

Lemma store_of_guarded (cfg : config State) depth :
  guarded (store_of cfg depth).
Proof.
  split; [reflexivity|]. intros a c H.
  apply container_dispatch_in_progress; exact H.
Qed.

(** Outside a dispatch the command goes through the compiled chain, the
    container being in progress meanwhile. *)
Lemma container_dispatch_idle (cfg : config State) depth a c :
  isDispatching c = false ->
  container_dispatch cfg (S depth) a c
  = finally
      (applyMiddleware (middlewares cfg) (store_of cfg depth)
         (terminal (store_of cfg depth) (reducer cfg)) a)
      (set_isDispatching false) (set_isDispatching true c).
Proof. intros H. cbn. rewrite H. reflexivity. Qed.

(** A body run inside a dispatch, against a guarded store, is quiet. *)
Lemma invoke_quiet store {R} (p : prog State (value State) R) :
  guarded store ->
  forall c, isDispatching c = true -> quiet c (snd (invoke store p c)).
Proof.
  intros [Hg Hd]. induction p as [r|e|k IH|a k IH|args k IH|cb ms k IH];
    intros c Hc; cbn.
  - auto with quiet.
  - auto with quiet.
  - rewrite Hg. apply IH; exact Hc.
  - unfold bind, attempt. rewrite (Hd a c Hc). apply IH; exact Hc.
  - body_step. eapply quiet_trans; [|apply IH; exact Hc]. auto with quiet.
  - body_step. eapply quiet_trans; [|apply IH; exact Hc]. auto with quiet.
Qed.

(** Two guarded stores are the same store to a body run inside a
    dispatch. *)
Lemma invoke_guarded_eq store1 store2 {R} (p : prog State (value State) R) :
  guarded store1 -> guarded store2 ->
  forall c, isDispatching c = true -> invoke store1 p c = invoke store2 p c.
Proof.
  intros [Hg1 Hd1] [Hg2 Hd2].
  induction p as [r|e|k IH|a k IH|args k IH|cb ms k IH]; intros c Hc; cbn.
  - reflexivity.
  - reflexivity.
  - rewrite Hg1, Hg2. apply IH; exact Hc.
  - unfold bind, attempt. rewrite (Hd1 a c Hc), (Hd2 a c Hc).
    apply IH; exact Hc.
  - body_step. apply IH; exact Hc.
  - body_step. apply IH; exact Hc.
Qed.

Lemma notify_quiet store (ls : list (prog State (value State) unit)) :
  guarded store ->
  forall c, isDispatching c = true -> quiet c (snd (notify store ls c)).
Proof.
  intros Hg. induction ls as [|l ls IH]; intros c Hc; cbn.
  - apply quiet_refl.
  - unfold bind.
    pose proof (invoke_quiet store l Hg c Hc) as Hq.
    destruct (invoke store l c) as [[[]|e] c1]; cbn in *; [|exact Hq].
    eapply quiet_trans; [exact Hq|]. apply IH.
    destruct Hq as (_ & _ & -> & _). exact Hc.
Qed.

(** A body that lets no error escape returns. *)
Lemma invoke_nothrow store {R} (p : prog State (value State) R) :
  guarded store -> nothrow p ->
  forall c, isDispatching c = true -> exists r, fst (invoke store p c) = Ok r.
Proof.
  intros [Hg Hd] Hp. induction Hp as [r|k _ IH|a k _ IH|args k _ IH|cb ms k _ IH];
    intros c Hc; cbn.
  - exists r. reflexivity.
  - rewrite Hg. apply IH; exact Hc.
  - unfold bind, attempt. rewrite (Hd a c Hc). apply IH; exact Hc.
  - body_step. apply IH; exact Hc.
  - body_step. apply IH; exact Hc.
Qed.

Lemma notify_nothrow store (ls : list (prog State (value State) unit)) :
  guarded store -> Forall nothrow ls ->
  forall c, isDispatching c = true -> fst (notify store ls c) = Ok tt.
Proof.
  intros Hg Hls. induction Hls as [|l ls Hl _ IH]; intros c Hc; cbn.
  - reflexivity.
  - unfold bind.
    pose proof (invoke_quiet store l Hg c Hc) as Hq.
    destruct (invoke_nothrow store l Hg Hl c Hc) as [r Hr].
    destruct (invoke store l c) as [[[]|e] c1]; cbn in *; [|discriminate].
    apply IH. destruct Hq as (_ & _ & -> & _). exact Hc.
Qed.

(** The terminal step, spelled out. *)
Lemma terminal_unfold store reducer a c :
  getState store = container_getState ->
  terminal store reducer a c
  = match invoke store (reducer (state c) a) c with
    | (Ok s', c1) =>
        match notify store (listeners c1) (set_state s' c1) with
        | (Ok _, c2) => (Ok (NewState s'), c2)
        | (Exn e, c2) => (Exn e, c2)
        end
    | (Exn e, c1) => (Exn e, c1)
    end.
Proof.
  intros Hg. unfold terminal. rewrite Hg. cbn. unfold bind at 1.
  destruct (invoke store (reducer (state c) a) c) as [[s'|e] c1]; reflexivity.
Qed.

(** What the terminal step leaves: the state the transition function
    returned (the old one when it threw), the same subscribers, more
    lines; what it returns is the state it stored. *)
Lemma terminal_post store reducer a c :
  guarded store -> isDispatching c = true ->
  let rc := terminal store reducer a c in
  isDispatching (snd rc) = true
  /\ listeners (snd rc) = listeners c
  /\ (exists lines, console (snd rc) = console c ++ lines)
  /\ (forall v, fst rc = Ok v ->
        v = NewState (state (snd rc))
        /\ fst (invoke store (reducer (state c) a) c) = Ok (state (snd rc)))
  /\ (forall e, fst (invoke store (reducer (state c) a) c) = Exn e ->
        fst rc = Exn e /\ state (snd rc) = state c).
Proof.
  intros Hg Hc rc. subst rc.
  rewrite (terminal_unfold store reducer a c (proj1 Hg)).
  pose proof (invoke_quiet store (reducer (state c) a) Hg c Hc) as Hq.
  destruct (invoke store (reducer (state c) a) c) as [[s'|e] c1]; cbn in *.
  - destruct Hq as (Hs & Hl & Hd & [l1 Hl1] & Ht).
    assert (Hc1 : isDispatching (set_state s' c1) = true)
      by (cbn; congruence).
    pose proof (notify_quiet store (listeners c1) Hg _ Hc1) as Hq2.
    destruct (notify store (listeners c1) (set_state s' c1)) as [[[]|e] c2];
      cbn in *; destruct Hq2 as (Hs2 & Hl2 & Hd2 & [l2 Hl2'] & Ht2);
      cbn in Hs2, Hl2, Hd2, Hl2'.
    + split; [congruence|]. split; [congruence|].
      split; [exists (l1 ++ l2); rewrite Hl2', Hl1; symmetry; apply app_assoc|].
      split.
      * intros v Hv. inversion Hv; subst. split; congruence.
      * intros e0 He0. discriminate.
    + split; [congruence|]. split; [congruence|].
      split; [exists (l1 ++ l2); rewrite Hl2', Hl1; symmetry; apply app_assoc|].
      split.
      * intros v Hv. discriminate.
      * intros e0 He0. discriminate.
  - destruct Hq as (Hs & Hl & Hd & Hl1 & Ht).
    split; [congruence|]. split; [congruence|]. split; [exact Hl1|].
    split.
    + intros v Hv. discriminate.
    + intros e0 He0. inversion He0; subst. split; [reflexivity|exact Hs].
Qed.

(** The logger around any next link of a store whose [getState] is the
    container's. *)
Lemma loggerMiddleware_unfold store next a c :
  getState store = container_getState ->
  loggerMiddleware store next a c
  = match next a (add_lines (logger_entry_lines a (state c)) c) with
    | (Ok r, c2) => (Ok r, add_lines (logger_exit_lines (state c2)) c2)
    | (Exn e, c2) => (Exn e, c2)
    end.
Proof.
  intros Hg. unfold loggerMiddleware. rewrite Hg.
  unfold bind, console_log, modify, container_getState, get, ret. cbn.
  unfold add_console, add_lines; cbn.
  repeat rewrite <- app_assoc. cbn [app].
  destruct (next a _) as [[r|e] c2]; [|reflexivity].
  cbn. repeat rewrite <- app_assoc. reflexivity.
Qed.

Lemma fold_left_wrap {X} (bs : list (X -> X)) (h : X -> X) (x : X) :
  fold_left (fun f g => fun next => f (g next)) bs h x
  = h (fold_right (fun fn acc => fn acc) x bs).
Proof.
  revert h. induction bs as [|b bs IH]; intros h; cbn; [reflexivity|].
  rewrite IH. reflexivity.
Qed.

(** The compiled chain of [i1 ... iN] around [T] is [i1(i2(...iN(T)))]. *)
Lemma applyMiddleware_compose (ms : list (middleware State)) store
  (T : dispatchFn State) :
  applyMiddleware ms store T
  = compose (List.map (fun m => m store) ms) T.
Proof.
  destruct ms as [|m [|m' ms]]; [reflexivity|reflexivity|].
  unfold applyMiddleware, compose.
  rewrite fold_left_wrap. reflexivity.
Qed.

(** A dispatch on a container built with the logger and then the async
    middleware, spelled out: the logger's entry lines, the async link
    around the terminal step, the logger's exit lines when that link
    returned. *)
Lemma container_dispatch_logger_async reducer depth a c :
  let cfg := {| reducer := reducer;
                middlewares := [loggerMiddleware; asyncMiddleware] |} in
  let store := store_of cfg depth in
  isDispatching c = false ->
  container_dispatch cfg (S depth) a c
  = match asyncMiddleware store (terminal store reducer) a
            (add_lines (logger_entry_lines a (state c))
               (set_isDispatching true c)) with
    | (Ok r, c2) =>
        (Ok r,
         set_isDispatching false (add_lines (logger_exit_lines (state c2)) c2))
    | (Exn e, c2) => (Exn e, set_isDispatching false c2)
    end.
Proof.
  intros cfg store Hc.
  rewrite (container_dispatch_idle cfg depth a c Hc).
  unfold finally. cbn [middlewares cfg applyMiddleware List.map fold_left].
  fold store. rewrite loggerMiddleware_unfold by reflexivity.
  cbn [state set_isDispatching].
  destruct (asyncMiddleware store _ a _) as [[r|e] c2]; reflexivity.
Qed.

(** The async link around the terminal step keeps the container in
    progress and its subscribers, and only adds lines. *)
Lemma async_link_post store reducer a c :
  guarded store -> isDispatching c = true ->
  let rc := asyncMiddleware store (terminal store reducer) a c in
  isDispatching (snd rc) = true
  /\ listeners (snd rc) = listeners c
  /\ exists lines, console (snd rc) = console c ++ lines.
Proof.
  intros Hg Hc rc. subst rc.
  destruct a as [t|s|body].
  - cbn [asyncMiddleware].
    destruct (terminal_post store reducer (Object t) c Hg Hc)
      as (H1 & H2 & H3 & _); auto.
  - cbn [asyncMiddleware].
    destruct (terminal_post store reducer (Str s) c Hg Hc)
      as (H1 & H2 & H3 & _); auto.
  - cbn [asyncMiddleware call]. unfold bind, console_log, modify.
    set (c1 := add_console _ (add_console _ c)).
    assert (Hc1 : isDispatching c1 = true) by exact Hc.
    pose proof (invoke_quiet store body Hg c1 Hc1)
      as (Hs & Hl & Hd & [l Hl'] & Ht).
    destruct (invoke store body c1) as [[[]|e] c2]; cbn in *.
    all: split; [congruence|]; split; [congruence|].
    all: eexists; rewrite Hl'; repeat rewrite <- app_assoc; reflexivity.
Qed.

(** C1 (onion ordering). The compiled chain of any interceptors around
    [T] is [i1(i2(...iN(T)))], and that of the logger and the async
    middleware is [logger(async(T))]. On a container built with these
    two, a dispatch of any command writes the logger's entry lines,
    with the command and the state before, then runs the async link
    around the terminal step, which only adds lines after them, and,
    when that link has returned, writes the logger's exit lines with
    the state it left; the logger returns what the link returned. For a
    command that is not a function that state is the one the transition
    function returned. When the link throws, the error passes through
    the logger. *)
Theorem onion_ordering :
  (forall (ms : list (middleware State)) store T,
      applyMiddleware ms store T = compose (List.map (fun m => m store) ms) T)
  /\ (forall store (T : dispatchFn State),
        applyMiddleware [loggerMiddleware; asyncMiddleware] store T
        = loggerMiddleware store (asyncMiddleware store T))
  /\ (forall reducer depth a c,
        let cfg := {| reducer := reducer;
                      middlewares := [loggerMiddleware; asyncMiddleware] |} in
        let store := store_of cfg depth in
        let c1 := add_lines (logger_entry_lines a (state c))
                    (set_isDispatching true c) in
        isDispatching c = false ->
        exists r c2 inner,
          asyncMiddleware store (terminal store reducer) a c1 = (r, c2)
          /\ console c2
             = console c ++ logger_entry_lines a (state c) ++ inner
          /\ container_dispatch cfg (S depth) a c
             = (r, set_isDispatching false
                     match r with
                     | Ok _ => add_lines (logger_exit_lines (state c2)) c2
                     | Exn _ => c2
                     end)
          /\ (is_function a = false ->
              forall v, r = Ok v ->
                v = NewState (state c2)
                /\ fst (invoke store (reducer (state c) a) c1)
                   = Ok (state c2))).
Proof.
  split; [|split].
  - intros ms store T. apply applyMiddleware_compose.
  - intros store T. reflexivity.
  - intros reducer depth a c cfg store c1 Hc.
    pose proof (container_dispatch_logger_async reducer depth a c Hc) as Hd.
    fold cfg store c1 in Hd.
    assert (Hc1 : isDispatching c1 = true) by reflexivity.
    pose proof (async_link_post store reducer a c1
                  (store_of_guarded cfg depth) Hc1) as (_ & _ & [inner Hin]).
    pose proof (terminal_post store reducer a c1
                  (store_of_guarded cfg depth) Hc1) as (_ & _ & _ & HT & _).
    destruct (asyncMiddleware store (terminal store reducer) a c1)
      as [r c2] eqn:E.
    exists r, c2, inner. split; [reflexivity|]. split.
    { cbn [snd] in Hin. rewrite Hin. unfold c1; cbn [console add_lines set_isDispatching].
      rewrite <- app_assoc. reflexivity. }
    split.
    { rewrite Hd. destruct r; reflexivity. }
    intros Hf v Hv. subst r.
    assert (Ea : asyncMiddleware store (terminal store reducer) a c1
                 = terminal store reducer a c1)
      by (destruct a; [reflexivity|reflexivity|discriminate]).
    rewrite Ea in E. rewrite E in HT. cbn [fst snd] in HT.
    apply HT. reflexivity.
Qed.

(** A dispatch of a function, on a container built with the logger and
    the async middleware, leaves the state and the subscribers as they
    were and the container idle. *)
Lemma dispatch_function_post reducer depth body c :
  let cfg := {| reducer := reducer;
                middlewares := [loggerMiddleware; asyncMiddleware] |} in
  isDispatching c = false ->
  state (snd (container_dispatch cfg (S depth) (Function body) c)) = state c
  /\ isDispatching (snd (container_dispatch cfg (S depth) (Function body) c))
     = false
  /\ listeners (snd (container_dispatch cfg (S depth) (Function body) c))
     = listeners c.
Proof.
  intros cfg Hc. subst cfg.
  rewrite (container_dispatch_logger_async reducer depth _ c Hc).
  set (cfg := {| reducer := reducer; middlewares := _ |}).
  set (c1 := add_lines _ (set_isDispatching true c)).
  cbn [asyncMiddleware call]. unfold bind, console_log, modify.
  set (c2 := add_console _ (add_console _ c1)).
  assert (Hc2 : isDispatching c2 = true) by reflexivity.
  pose proof (invoke_quiet (store_of cfg depth) body
                (store_of_guarded cfg depth) c2 Hc2) as (Hs & Hl & _).
  destruct (invoke (store_of cfg depth) body c2) as [[[]|e] c3]; cbn in *;
    repeat split; congruence.
Qed.

(** C2 (procedure commands). The async middleware answers a function
    by calling it with the store's [dispatch] and [getState] and never
    calls [next]: what it does is the same for every [next]. On a
    container built with the logger and the async middleware, a
    dispatch of a function does not depend on the transition function
    and leaves the state and the subscribers as they were. *)
Theorem procedure_command :
  (forall store (next : dispatchFn State) body c,
      asyncMiddleware store next (Function body) c
      = (console_log [LStr "Async Middleware🍌:"; LStore; LNext;
                      LValue (Function body)] ;;
         console_log [LStr "Async Middleware: 检测到函数action，执行异步操作"] ;;
         invoke store body ;; ret Undefined) c)
  /\ (forall store (next next' : dispatchFn State) body c,
        asyncMiddleware store next (Function body) c
        = asyncMiddleware store next' (Function body) c)
  /\ (forall reducer reducer' depth body c,
        let cfg := {| reducer := reducer;
                      middlewares := [loggerMiddleware; asyncMiddleware] |} in
        let cfg' := {| reducer := reducer';
                       middlewares := [loggerMiddleware; asyncMiddleware] |} in
        isDispatching c = false ->
        container_dispatch cfg (S depth) (Function body) c
        = container_dispatch cfg' (S depth) (Function body) c
        /\ state (snd (container_dispatch cfg (S depth) (Function body) c))
           = state c
        /\ listeners (snd (container_dispatch cfg (S depth) (Function body) c))
           = listeners c).
Proof.
  split; [|split].
  - reflexivity.
  - reflexivity.
  - intros reducer reducer' depth body c cfg cfg' Hc.
    rewrite (container_dispatch_logger_async reducer depth _ c Hc).
    rewrite (container_dispatch_logger_async reducer' depth _ c Hc).
    fold cfg cfg'.
    set (c1 := add_lines _ (set_isDispatching true c)).
    cbn [asyncMiddleware call]. unfold bind, console_log, modify.
    set (c2 := add_console _ (add_console _ c1)).
    assert (Hc2 : isDispatching c2 = true) by reflexivity.
    rewrite (invoke_guarded_eq (store_of cfg' depth) (store_of cfg depth) body
               (store_of_guarded cfg' depth) (store_of_guarded cfg depth)
               c2 Hc2).
    split; [reflexivity|].
    pose proof (invoke_quiet (store_of cfg depth) body
                  (store_of_guarded cfg depth) c2 Hc2) as (Hs & Hl & _).
    destruct (invoke (store_of cfg depth) body c2) as [[[]|e] c3]; cbn in *;
      split; congruence.
Qed.

(** Inside a dispatch, a terminal step whose transition function and
    subscribers let no error escape returns the state the transition
    function returned, which is then the container's. *)
Lemma terminal_completes store reducer a c :
  guarded store -> isDispatching c = true ->
  nothrow (reducer (state c) a) ->
  Forall nothrow (listeners c) ->
  exists s' c',
    terminal store reducer a c = (Ok (NewState s'), c')
    /\ fst (invoke store (reducer (state c) a) c) = Ok s'
    /\ state c' = s'.
Proof.
  intros Hg Hc Hr Hls.
  rewrite (terminal_unfold store reducer a c (proj1 Hg)).
  destruct (invoke_nothrow store (reducer (state c) a) Hg Hr c Hc)
    as [s' Hs'].
  pose proof (invoke_quiet store (reducer (state c) a) Hg c Hc)
    as (Hs & Hl & Hd & _).
  destruct (invoke store (reducer (state c) a) c) as [[s1|e] c2];
    cbn in Hs', Hs, Hl, Hd; [|discriminate].
  inversion Hs'; subst s1.
  assert (Hc2 : isDispatching (set_state s' c2) = true)
    by (cbn; congruence).
  assert (Hls2 : Forall nothrow (listeners c2))
    by (rewrite Hl; exact Hls).
  pose proof (notify_nothrow store (listeners c2) Hg Hls2 _ Hc2) as Hn.
  pose proof (notify_quiet store (listeners c2) Hg _ Hc2) as (Hs3 & _).
  destruct (notify store (listeners c2) (set_state s' c2)) as [[[]|e] c3];
    cbn in Hn, Hs3; [|discriminate].
  exists s', c3. repeat split. exact Hs3.
Qed.

Lemma refusing_guarded : guarded (@refusing State).
Proof. split; [reflexivity|]. intros a c _. reflexivity. Qed.

(** Two guarded stores are the same store to the notification pass, to
    the terminal step and to the async link around it. *)
Lemma notify_guarded_eq store1 store2
  (ls : list (prog State (value State) unit)) :
  guarded store1 -> guarded store2 ->
  forall c, isDispatching c = true -> notify store1 ls c = notify store2 ls c.
Proof.
  intros H1 H2. induction ls as [|l ls IH]; intros c Hc; [reflexivity|].
  cbn [notify]. unfold bind.
  rewrite (invoke_guarded_eq store1 store2 l H1 H2 c Hc).
  pose proof (invoke_quiet store2 l H2 c Hc) as (_ & _ & Hd & _).
  destruct (invoke store2 l c) as [[[]|e] c1]; [|reflexivity].
  apply IH. cbn in Hd. congruence.
Qed.

Lemma terminal_guarded_eq store1 store2 reducer a c :
  guarded store1 -> guarded store2 -> isDispatching c = true ->
  terminal store1 reducer a c = terminal store2 reducer a c.
Proof.
  intros H1 H2 Hc.
  rewrite (terminal_unfold store1 reducer a c (proj1 H1)).
  rewrite (terminal_unfold store2 reducer a c (proj1 H2)).
  rewrite (invoke_guarded_eq store1 store2 _ H1 H2 c Hc).
  pose proof (invoke_quiet store2 (reducer (state c) a) H2 c Hc)
    as (_ & _ & Hd & _).
  destruct (invoke store2 (reducer (state c) a) c) as [[s'|e] c1];
    [|reflexivity].
  cbn in Hd.
  rewrite (notify_guarded_eq store1 store2 (listeners c1) H1 H2
             (set_state s' c1)) by (cbn; congruence).
  reflexivity.
Qed.

Lemma async_link_guarded_eq store1 store2 reducer a c :
  guarded store1 -> guarded store2 -> isDispatching c = true ->
  asyncMiddleware store1 (terminal store1 reducer) a c
  = asyncMiddleware store2 (terminal store2 reducer) a c.
Proof.
  intros H1 H2 Hc. destruct a as [t|s|body]; cbn [asyncMiddleware].
  - apply terminal_guarded_eq; assumption.
  - apply terminal_guarded_eq; assumption.
  - cbn [call]. unfold bind, console_log, modify.
    rewrite (invoke_guarded_eq store1 store2 body H1 H2) by exact Hc.
    reflexivity.
Qed.


(** A body that computes on its arguments alone returns what
    [result_of] says, against any store. *)
Lemma invoke_result_of store {R} (p : prog State (value State) R) r :
  result_of p = Some r -> forall c, fst (invoke store p c) = Ok r.
Proof.
  induction p as [r0|e|k IH|a k IH|args k IH|cb ms k IH]; cbn;
    intros H c; try discriminate.
  - congruence.
  - body_step. apply IH; exact H.
  - body_step. apply IH; exact H.
Qed.

(** After a dispatch of a command that is not a function, on a container
    built with the logger and the async middleware over a transition
    function that computes on its arguments alone, the state is what
    the transition function returns for the state before and the
    command; the container is idle again and has the same
    subscribers. *)
Lemma dispatch_plain_post reducer depth a c s' :
  let cfg := {| reducer := reducer;
                middlewares := [loggerMiddleware; asyncMiddleware] |} in
  isDispatching c = false ->
  is_function a = false ->
  result_of (reducer (state c) a) = Some s' ->
  state (snd (container_dispatch cfg (S depth) a c)) = s'
  /\ isDispatching (snd (container_dispatch cfg (S depth) a c)) = false
  /\ listeners (snd (container_dispatch cfg (S depth) a c)) = listeners c.
Proof.
  intros cfg Hc Hf Hr. subst cfg.
  rewrite (container_dispatch_logger_async reducer depth a c Hc).
  set (cfg := {| reducer := reducer; middlewares := _ |}).
  set (store := store_of cfg depth).
  set (c1 := add_lines _ (set_isDispatching true c)).
  assert (Hg : guarded store) by apply store_of_guarded.
  assert (Hc1 : isDispatching c1 = true) by reflexivity.
  assert (Ea : asyncMiddleware store (terminal store reducer) a c1
               = terminal store reducer a c1)
    by (destruct a; [reflexivity|reflexivity|discriminate]).
  rewrite Ea, (terminal_unfold store reducer a c1 (proj1 Hg)).
  change (state c1) with (state c).
  pose proof (invoke_result_of store _ s' Hr c1) as Hs'.
  pose proof (invoke_quiet store (reducer (state c) a) Hg c1 Hc1)
    as (Hs & Hl & Hd & _).
  destruct (invoke store (reducer (state c) a) c1) as [[s1|e] c2];
    cbn in Hs', Hs, Hl, Hd; [|discriminate].
  inversion Hs'; subst s1.
  assert (Hc2 : isDispatching (set_state s' c2) = true) by (cbn; congruence).
  pose proof (notify_quiet store (listeners c2) Hg _ Hc2) as (Hs3 & Hl3 & _).
  destruct (notify store (listeners c2) (set_state s' c2)) as [[[]|e] c3];
    cbn in Hs3, Hl3 |- *; repeat split; congruence.
Qed.

(** Dispatching commands one after the other replays the transition
    function on them. *)
Lemma dispatch_all_replay reducer depth actions :
  let cfg := {| reducer := reducer;
                middlewares := [loggerMiddleware; asyncMiddleware] |} in
  forall c s',
    isDispatching c = false ->
    Forall (fun a => is_function a = false) actions ->
    replay reducer (state c) actions = Some s' ->
    state (snd (dispatch_all (store_of cfg (S depth)) actions c)) = s'.
Proof.
  intros cfg. induction actions as [|a rest IH]; intros c s' Hc Hall Hrep.
  - cbn in *. congruence.
  - inversion Hall as [|? ? Ha Hrest]; subst.
    cbn [replay] in Hrep.
    destruct (result_of (reducer (state c) a)) as [s1|] eqn:E; [|discriminate].
    destruct (dispatch_plain_post reducer depth a c s1 Hc Ha E)
      as (Hs1 & Hd1 & _).
    fold cfg in Hs1, Hd1.
    cbn [dispatch_all]. unfold bind at 1, attempt.
    cbn [store_of dispatch].
    destruct (container_dispatch cfg (S depth) a c) as [r c1].
    cbn [snd] in Hs1, Hd1.
    apply IH; [exact Hd1|exact Hrest|]. rewrite Hs1. exact Hrep.
Qed.

End Laws.

End ReduxLaws.

(** ** The demo *)

Module DemoLaws.

Import Redux Demo ReduxLaws.

Lemma store_value : store = Ok (storeConfig, storeContainer).
Proof. reflexivity. Qed.

(** The reducers compute on their arguments alone. *)
Lemma counterReducer_result state a :
  exists s', result_of (counterReducer state a) = Some s'.
Proof. eexists. reflexivity. Qed.

Lemma addReducer_object state t :
  result_of (addReducer state (Object t))
  = Some (default AddReducer.initialState state).
Proof. reflexivity. Qed.

Lemma result_of_pbind {S A R R'} (p : prog S A R) (f : R -> prog S A R') r :
  result_of p = Some r -> result_of (pbind p f) = result_of (f r).
Proof.
  induction p as [r0|e|k IH|a k IH|args k IH|cb ms k IH]; cbn; intros H;
    try discriminate; auto.
  congruence.
Qed.

(** [rootReducer] returns the object of what its two reducers return. *)
Lemma rootReducer_result state a :
  exists c' a',
    result_of (counterReducer (option_map counter state) a) = Some c'
    /\ result_of (addReducer (option_map add state) a) = Some a'
    /\ result_of (rootReducer state a)
       = Some {| counter := c'; add := a' |}.
Proof. do 2 eexists. repeat split. Qed.

Lemma counterReducer_unrecognized s t :
  unrecognized t ->
  result_of (counterReducer (Some s) (Object (Some t))) = Some s.
Proof.
  intros (H1 & H2 & H3 & H4). cbn.
  apply String.eqb_neq in H1, H2, H3, H4.
  rewrite H1, H2, H3, H4. reflexivity.
Qed.

Lemma rootReducer_unrecognized s t :
  unrecognized t ->
  result_of (rootReducer (Some s) (Object (Some t))) = Some s.
Proof.
  intros H. unfold rootReducer, combineReducers.
  rewrite (result_of_pbind _ _ (counter s))
    by (apply counterReducer_unrecognized; exact H).
  destruct s as [c a]. reflexivity.
Qed.

(** C7 (counter scenario). The counter reducer's initial state has count
    0; replaying the reducer on three increment commands from it gives
    count 3, and so does dispatching them to the store; for a tag the
    reducer has no case for it returns the state it was given, and a
    dispatch of such a command leaves the store's state as it was. *)
Theorem counter_scenario :
  CounterReducer.count CounterReducer.initialState = 0%Z
  /\ replay (fun s a => counterReducer (Some s) a)
            CounterReducer.initialState [increment; increment; increment]
     = Some {| CounterReducer.count := 3;
               CounterReducer.loading := false;
               CounterReducer.lastAction := Some "INCREMENT" |}
  /\ (forall depth,
        CounterReducer.count
          (counter
             (state (snd (dispatch_all (store_of storeConfig (S depth))
                            [increment; increment; increment]
                            storeContainer)))) = 3%Z)
  /\ (forall s t,
        unrecognized t ->
        result_of (counterReducer (Some s) (Object (Some t))) = Some s)
  /\ (forall depth t c,
        isDispatching c = false ->
        unrecognized t ->
        state (snd (container_dispatch storeConfig (S depth)
                      (Object (Some t)) c)) = state c).
Proof.
  split; [reflexivity|]. split; [reflexivity|]. split; [|split].
  - intros depth.
    assert (E : state (snd (dispatch_all (store_of storeConfig (S depth))
                              [increment; increment; increment]
                              storeContainer))
                = {| counter := {| CounterReducer.count := 3;
                                   CounterReducer.loading := false;
                                   CounterReducer.lastAction :=
                                     Some "INCREMENT" |};
                     add := AddReducer.initialState |}).
    { apply (dispatch_all_replay (reducer storeConfig) depth
               [increment; increment; increment] storeContainer).
      - reflexivity.
      - repeat constructor.
      - reflexivity. }
    rewrite E. reflexivity.
  - intros s t H. apply counterReducer_unrecognized; exact H.
  - intros depth t c Hc H.
    apply (dispatch_plain_post (reducer storeConfig) depth
             (Object (Some t)) c (state c) Hc eq_refl).
    apply rootReducer_unrecognized; exact H.
Qed.

(** The scenario at the tag NOOP, after the three increments. *)
Lemma counter_scenario_witness :
  result_of (counterReducer (Some CounterReducer.initialState)
               (Object (Some "NOOP")))
  = Some CounterReducer.initialState
  /\ state (snd (container_dispatch storeConfig 1 (Object (Some "NOOP"))
                   storeContainer))
     = state storeContainer.
Proof.
  assert (H : unrecognized "NOOP") by (repeat split; discriminate).
  destruct counter_scenario as (_ & _ & _ & Hr & Hd).
  split.
  - apply Hr. exact H.
  - apply Hd; [reflexivity|exact H].
Defined.

(** C8 (dispatch purity). Around any next link, the logger and the async
    middleware hand a command that is not a function to that link as it
    is and return what the link returned. On the store, whatever its
    subscribers, after two such commands dispatched in turn the state is
    [rootReducer(rootReducer(s0, C1), C2)] for the state [s0] before. *)
Theorem dispatch_purity :
  (forall (store : api rootState) (next : dispatchFn rootState) a c,
      getState store = container_getState ->
      is_function a = false ->
      loggerMiddleware store (asyncMiddleware store next) a c
      = match next a (add_lines (logger_entry_lines a (state c)) c) with
        | (Ok r, c2) => (Ok r, add_lines (logger_exit_lines (state c2)) c2)
        | (Exn e, c2) => (Exn e, c2)
        end)
  /\ (forall depth (C1 C2 : action) c,
        isDispatching c = false ->
        is_function C1 = false ->
        is_function C2 = false ->
        exists s1 s2,
          result_of (rootReducer (Some (state c)) C1) = Some s1
          /\ result_of (rootReducer (Some s1) C2) = Some s2
          /\ state (snd (dispatch_all (store_of storeConfig (S depth))
                           [C1; C2] c)) = s2).
Proof.
  split.
  - intros store next a c Hg Hf.
    rewrite (loggerMiddleware_unfold store _ a c Hg).
    destruct a; [reflexivity|reflexivity|discriminate].
  - intros depth C1 C2 c Hc H1 H2.
    destruct (rootReducer_result (Some (state c)) C1) as (c1 & a1 & _ & _ & E1).
    destruct (rootReducer_result (Some {| counter := c1; add := a1 |}) C2)
      as (c2 & a2 & _ & _ & E2).
    do 2 eexists. split; [exact E1|]. split; [exact E2|].
    apply (dispatch_all_replay (reducer storeConfig) depth [C1; C2] c).
    + exact Hc.
    + repeat constructor; assumption.
    + cbn [replay reducer storeConfig]. rewrite E1, E2. reflexivity.
Qed.

(** The purity statement at the store as created, for an increment and
    then a reset. *)
Lemma dispatch_purity_witness :
  exists s1 s2,
    result_of (rootReducer (Some (state storeContainer)) increment) = Some s1
    /\ result_of (rootReducer (Some s1) reset) = Some s2
    /\ state (snd (dispatch_all (store_of storeConfig 1) [increment; reset]
                     storeContainer)) = s2.
Proof.
  apply (proj2 dispatch_purity 0 increment reset storeContainer);
    reflexivity.
Defined.

(** The two kinds of dispatch, on the store. *)
Lemma store_dispatch_plain depth a c s' :
  isDispatching c = false ->
  is_function a = false ->
  result_of (rootReducer (Some (state c)) a) = Some s' ->
  state (snd (container_dispatch storeConfig (S depth) a c)) = s'
  /\ isDispatching (snd (container_dispatch storeConfig (S depth) a c)) = false
  /\ listeners (snd (container_dispatch storeConfig (S depth) a c))
     = listeners c.
Proof. exact (dispatch_plain_post (reducer storeConfig) depth a c s'). Qed.

Lemma store_dispatch_function depth body c :
  isDispatching c = false ->
  state (snd (container_dispatch storeConfig (S depth) (Function body) c))
  = state c
  /\ isDispatching
       (snd (container_dispatch storeConfig (S depth) (Function body) c))
     = false
  /\ listeners
       (snd (container_dispatch storeConfig (S depth) (Function body) c))
     = listeners c.
Proof. exact (dispatch_function_post (reducer storeConfig) depth body c). Qed.

Lemma dispatch_all_add depth actions :
  forall c,
    isDispatching c = false ->
    Forall (fun a => is_command a = true) actions ->
    add (state (snd (dispatch_all (store_of storeConfig (S depth)) actions c)))
    = add (state c).
Proof.
  induction actions as [|a rest IH]; intros c Hc Hall; [reflexivity|].
  inversion Hall as [|? ? Ha Hrest]; subst.
  cbn [dispatch_all]. unfold bind at 1, attempt. cbn [store_of dispatch].
  assert (H : add (state (snd (container_dispatch storeConfig (S depth) a c)))
              = add (state c)
              /\ isDispatching
                   (snd (container_dispatch storeConfig (S depth) a c))
                 = false).
  { destruct a as [t|s|body].
    - destruct (rootReducer_result (Some (state c)) (Object t))
        as (c' & a' & _ & Ea & E).
      rewrite addReducer_object in Ea. inversion Ea; subst a'.
      destruct (store_dispatch_plain depth (Object t) c _ Hc eq_refl E)
        as (Hs & Hd & _).
      split; [|exact Hd]. rewrite Hs. reflexivity.
    - discriminate.
    - destruct (store_dispatch_function depth body c Hc) as (Hs & Hd & _).
      split; [|exact Hd]. rewrite Hs. reflexivity. }
  destruct H as [Ha' Hd].
  destruct (container_dispatch storeConfig (S depth) a c) as [r c1].
  cbn [snd] in *. rewrite <- Ha'. apply IH; assumption.
Qed.



(** The state the store starts in is what [rootReducer] returns for a
    missing state. *)
Lemma initialRootState_default a :
  result_of (rootReducer None a)
  = result_of (rootReducer (Some initialRootState) a).
Proof. reflexivity. Qed.

(** The onion law at the store as created, for an increment. *)
Lemma onion_ordering_witness :
  exists r c2 inner,
    asyncMiddleware (store_of storeConfig 0)
      (terminal (store_of storeConfig 0) (reducer storeConfig)) increment
      (add_lines (logger_entry_lines increment (state storeContainer))
         (set_isDispatching true storeContainer)) = (r, c2)
    /\ console c2
       = console storeContainer
         ++ logger_entry_lines increment (state storeContainer) ++ inner
    /\ container_dispatch storeConfig 1 increment storeContainer
       = (r, set_isDispatching false
               match r with
               | Ok _ => add_lines (logger_exit_lines (state c2)) c2
               | Exn _ => c2
               end)
    /\ (is_function increment = false ->
        forall v, r = Ok v ->
          v = NewState (state c2)
          /\ fst (invoke (store_of storeConfig 0)
                    (reducer storeConfig (state storeContainer) increment)
                    (add_lines
                       (logger_entry_lines increment (state storeContainer))
                       (set_isDispatching true storeContainer)))
             = Ok (state c2)).
Proof.
  exact (proj2 (proj2 onion_ordering) (reducer storeConfig) 0 increment
           storeContainer eq_refl).
Defined.

(** The console after that dispatch, line by line: the logger's entry,
    the reducer, the subscriber, the logger's exit. *)
Example increment_console :
  let s1 := {| counter := {| CounterReducer.count := 1;
                             CounterReducer.loading := false;
                             CounterReducer.lastAction := Some "INCREMENT" |};
               add := AddReducer.initialState |} in
  container_dispatch storeConfig 1 increment storeContainer
  = (Ok (NewState s1),
     {| state := s1;
        listeners := [storeListener];
        isDispatching := false;
        console :=
          [ [LStr "Store🍎:"; LStore];
            [LStr "Logger Middleware🍎:"];
            [LStr "Action🍎:"; LValue increment];
            [LStr "Before State🍎:"; LState initialRootState];
            [LStr "next🍎:"; LNext];
            [LStr "Reducer called with action:"; LValue increment];
            [LStr "Store updated! Current state:"; LState s1];
            [LStr "After State🍎:"; LState s1];
            [LStr "---"] ];
        timers := [] |}).
Proof. reflexivity. Qed.

(** The procedure statement at the store as created, for the thunk of
    [incrementAsyncThunk], against a transition function that would
    reset the state. *)
Lemma procedure_command_witness :
  container_dispatch storeConfig 1 incrementAsyncThunk storeContainer
  = container_dispatch
      {| reducer := fun _ _ => Return initialRootState;
         middlewares := [loggerMiddleware; asyncMiddleware] |}
      1 incrementAsyncThunk storeContainer
  /\ state (snd (container_dispatch storeConfig 1 incrementAsyncThunk
                   storeContainer))
     = state storeContainer
  /\ listeners (snd (container_dispatch storeConfig 1 incrementAsyncThunk
                       storeContainer))
     = listeners storeContainer.
Proof.
  exact (proj2 (proj2 procedure_command) (reducer storeConfig)
           (fun _ _ => Return initialRootState) 0 _ storeContainer eq_refl).
Defined.

(** The thunk leaves the count at 0 and a timer pending; when the timer
    fires, its callback dispatches the increment, in a pass of its
    own. *)
Example thunk_then_timer :
  let store := store_of storeConfig 1 in
  let c1 := snd (dispatch store incrementAsyncThunk storeContainer) in
  let c2 := snd (fire_timer store c1) in
  CounterReducer.count (counter (state c1)) = 0%Z
  /\ List.length (timers c1) = 1
  /\ CounterReducer.count (counter (state c2)) = 1%Z
  /\ timers c2 = [].
Proof. repeat split. Qed.

Import Reentrant.

Lemma eagerListener_nothrow : nothrow eagerListener.
Proof. constructor. intros [v|e]; repeat constructor. Qed.

Lemma eagerReducer_nothrow s a : nothrow (eagerReducer s a).
Proof. constructor. intros r. constructor. Qed.



(** That dispatch, concretely: the transition function's nested call
    threw and it went on to count the command; the subscriber's nested
    call threw and it logged so; the outer dispatch returned the new
    state. *)
Example eager_dispatch :
  container_dispatch eagerConfig 1 (Object (Some "PING")) eagerContainer
  = (Ok (NewState 1),
     {| state := 1;
        listeners := [eagerListener];
        isDispatching := false;
        console :=
          [ [LStr "Logger Middleware🍎:"];
            [LStr "Action🍎:"; LValue (Object (Some "PING"))];
            [LStr "Before State🍎:"; LState 0];
            [LStr "next🍎:"; LNext];
            [LStr "dispatch threw"];
            [LStr "After State🍎:"; LState 1];
            [LStr "---"] ];
        timers := [] |}).
Proof. reflexivity. Qed.

End DemoLaws.

(** ** The utilities of the IO guides *)

Module IOUtilsLaws.

Import IOMonad IOUtils.

Section Laws.

Context {U V : Type}.

Implicit Types w : world U V.

(** Functor laws of [map], at run: mapping the identity runs as the
    instance itself, and two maps in a row run as one map of the
    composed function. *)
Theorem map_functor {A B C} (io : IO U V A) (f : A -> M (world U V) B)
  (g : B -> M (world U V) C) w :
  (e <- map io (fun x => ret x) ;; run e) w = run io w
  /\ (e1 <- map io f ;; e2 <- map e1 g ;; run e2) w
     = (e <- map io (fun x => y <- f x ;; g y) ;; run e) w.
Proof.
  split.
  - unfold map, run; cbn. unfold bind.
    destruct (unsafePerformIO io w) as [[a|e] w1]; reflexivity.
  - unfold map, run; cbn. unfold bind.
    destruct (unsafePerformIO io w) as [[a|e] w1]; reflexivity.
Qed.

(** Identity laws of [chain] and [IO.of], at run: [IO.of(x).chain(f)]
    runs as [f(x)], and [io.chain(IO.of)] runs as [io]. *)
Theorem chain_identities {A B} (io : IO U V A) (x : A)
  (f : A -> M (world U V) (IO U V B)) w :
  (e0 <- IO_of x ;; e <- chain e0 f ;; run e) w = (e <- f x ;; run e) w
  /\ (e <- chain io (fun a => IO_of a) ;; run e) w = run io w.
Proof.
  split.
  - reflexivity.
  - unfold chain, run; cbn. unfold bind.
    destruct (unsafePerformIO io w) as [[a|e] w1]; reflexivity.
Qed.

(** [io.map(f)] runs as [io.chain(x => IO.of(f(x)))]. *)
Theorem map_as_chain {A B} (io : IO U V A) (f : A -> M (world U V) B) w :
  (e <- map io f ;; run e) w
  = (e <- chain io (fun x => y <- f x ;; IO_of y) ;; run e) w.
Proof.
  unfold map, chain, run; cbn. unfold bind.
  destruct (unsafePerformIO io w) as [[a|e] w1]; [|reflexivity].
  cbn. destruct (f a w1) as [[b|e] w2]; reflexivity.
Qed.

(** When the wrapped operation throws, the run of [io.map(f).chain(g)]
    throws the same error from the world the operation left: neither [f]
    nor [g] is called. *)
Theorem error_skips_map_and_chain {A B C} (io : IO U V A)
  (f : A -> M (world U V) B) (g : B -> M (world U V) (IO U V C)) w e w' :
  run io w = (Exn e, w') ->
  (e1 <- map io f ;; e2 <- chain e1 g ;; run e2) w = (Exn e, w').
Proof.
  unfold run. intros H. unfold map, chain, run; cbn. unfold bind.
  rewrite H. reflexivity.
Qed.

(** [this.ap(io)] runs the instance holding the function first, then
    [io], then applies the function; so [IO.of(f).ap(IO.of(x))] runs as
    [f(x)]. *)
Theorem ap_runs_function_first {A B} (this : IO U V (A -> M (world U V) B))
  (io : IO U V A) (f : A -> M (world U V) B) (x : A) w :
  (e <- ap this io ;; run e) w
  = (h <- run this ;; a <- run io ;; h a) w
  /\ (ef <- IO_of f ;; ex <- IO_of x ;; e <- ap ef ex ;; run e) w = f x w.
Proof.
  split.
  - unfold ap, chain, map, run; cbn. unfold bind.
    destruct (unsafePerformIO this w) as [[h|e] w1]; [|reflexivity].
    cbn. destruct (unsafePerformIO io w1) as [[a|e] w2]; reflexivity.
  - cbn. unfold bind. cbn. destruct (f x w) as [[b|e] w1]; reflexivity.
Qed.

(** [composeIO(io1, io2)] runs [io1], then [io2], and returns the pair
    of their results; when [io1] throws, [io2] is not run. *)
Theorem composeIO_runs_both_in_order {A B} (io1 : IO U V A) (io2 : IO U V B) w :
  (e <- composeIO io1 io2 ;; run e) w
  = (a <- run io1 ;; b <- run io2 ;; ret (a, b)) w
  /\ (forall e w', run io1 w = (Exn e, w') ->
        (c <- composeIO io1 io2 ;; run c) w = (Exn e, w')).
Proof.
  assert (H : (e <- composeIO io1 io2 ;; run e) w
              = (a <- run io1 ;; b <- run io2 ;; ret (a, b)) w).
  { unfold composeIO, chain, map, run; cbn. unfold bind.
    destruct (unsafePerformIO io1 w) as [[a|e] w1]; [|reflexivity].
    cbn. destruct (unsafePerformIO io2 w1) as [[b|e] w2]; reflexivity. }
  split; [exact H|].
  intros e w' He. rewrite H. unfold bind. rewrite He. reflexivity.
Qed.

Lemma run_each_length {A} (io : IO U V A) n :
  forall w rs w', run_each n io w = (Ok rs, w') -> length rs = n.
Proof.
  induction n as [|n IH]; intros w rs w' H; cbn in H.
  - inversion H. reflexivity.
  - unfold bind, attempt in H.
    destruct (run io w) as [r0 w1].
    destruct (run_each n io w1) as [[rest|e] w2] eqn:E; [|discriminate].
    inversion H; subst. cbn. f_equal. eapply IH; exact E.
Qed.

Lemma run_each_S {A} (io : IO U V A) n w :
  run_each (S n) io w
  = match run io w with
    | (r0, w1) =>
        match run_each n io w1 with
        | (Ok rest, w2) => (Ok (r0 :: rest), w2)
        | (Exn e, w2) => (Exn e, w2)
        end
    end.
Proof.
  cbn. unfold bind, attempt. destruct (run io w) as [r0 w1].
  destruct (run_each n io w1) as [[rest|e] w2]; reflexivity.
Qed.

Lemma retry_loop_success {A} (undefined : error) (io : IO U V A) k :
  forall times w errs v w' lastError,
    k < times ->
    run_each (S k) io w = (Ok (errs ++ [Ok v]), w') ->
    Forall threw errs ->
    retry_loop undefined times io lastError w = (Ok v, w').
Proof.
  induction k as [|k IH]; intros times w errs v w' lastError Hk Hrun Herrs;
    (destruct times as [|t]; [lia|]);
    rewrite run_each_S in Hrun; cbn [retry_loop]; unfold run in Hrun;
    destruct (unsafePerformIO io w) as [r0 w1].
  - cbn in Hrun. inversion Hrun; subst.
    destruct errs as [|x [|y errs]]; cbn in H0; inversion H0; subst.
    reflexivity.
  - destruct (run_each (S k) io w1) as [[rest|e] w2] eqn:E; [|discriminate].
    inversion Hrun; subst.
    pose proof (run_each_length io (S k) w1 rest w' E) as Hlen.
    destruct errs as [|x errs]; cbn in H0; inversion H0; subst.
    + cbn in Hlen. discriminate.
    + inversion Herrs as [|? ? Hx Herrs']; subst.
      destruct x as [a|e]; [destruct Hx|].
      apply (IH t w1 errs v w' (Some e)); [lia|exact E|exact Herrs'].
Qed.

Lemma last_default_irrelevant {X} (l : list X) :
  forall x y z, List.last (x :: l) y = List.last (x :: l) z.
Proof.
  induction l as [|u l IH]; intros x y z; [reflexivity|].
  change (List.last (u :: l) y = List.last (u :: l) z). apply IH.
Qed.

Lemma last_threw {A} (rs : list (outcome A)) :
  forall r d, Forall threw (r :: rs) -> exists e, List.last (r :: rs) d = Exn e.
Proof.
  induction rs as [|u rs IH]; intros r d H.
  - inversion H as [|? ? Hr _]; subst. destruct r as [a|e]; [destruct Hr|].
    exists e. reflexivity.
  - inversion H as [|? ? _ Hrest]; subst.
    change (List.last (r :: u :: rs) d) with (List.last (u :: rs) d).
    apply IH. exact Hrest.
Qed.

Lemma last_error_cons {A} (d : error) e (rs : list (outcome A)) :
  Forall threw rs ->
  last_error d (Exn e :: rs) = last_error e rs.
Proof.
  intros H. unfold last_error. destruct rs as [|r rs]; [reflexivity|].
  change (List.last (Exn e :: r :: rs) (Exn d))
    with (List.last (r :: rs) (Exn d)).
  rewrite (last_default_irrelevant rs r (Exn d) (Exn e)).
  destruct (last_threw rs r (Exn e) H) as [e' He']. rewrite He'.
  reflexivity.
Qed.

Lemma retry_loop_exhausted {A} (undefined : error) (io : IO U V A) times :
  forall w rs w' lastError,
    run_each times io w = (Ok rs, w') ->
    Forall threw rs ->
    retry_loop undefined times io lastError w
    = (Exn (last_error (default undefined lastError) rs), w').
Proof.
  induction times as [|t IH]; intros w rs w' lastError Hrun Hrs.
  - cbn in Hrun. inversion Hrun; subst. reflexivity.
  - rewrite run_each_S in Hrun. cbn [retry_loop]. unfold run in Hrun.
    destruct (unsafePerformIO io w) as [r0 w1].
    destruct (run_each t io w1) as [[rest|e] w2] eqn:E; [|discriminate].
    inversion Hrun; subst.
    inversion Hrs as [|? ? Hr0 Hrest]; subst.
    destruct r0 as [a|e]; [destruct Hr0|].
    rewrite (IH w1 rest w' (Some e) E Hrest). cbn [default].
    rewrite (last_error_cons (default undefined lastError) e rest Hrest).
    reflexivity.
Qed.

(** [retry(times, io)] returns the result of the first run of [io] that
    returns, when that is among the first [times] runs, from the world
    that run left: the runs before it threw, and no run follows it. *)
Theorem retry_returns_first_success {A} (undefined : error) (io : IO U V A)
  times k w errs v w' :
  k < times ->
  run_each (S k) io w = (Ok (errs ++ [Ok v]), w') ->
  Forall threw errs ->
  (e <- retry undefined times io ;; run e) w = (Ok v, w').
Proof.
  intros Hk Hrun Herrs.
  change ((e <- retry undefined times io ;; run e) w)
    with (retry_loop undefined times io None w).
  eapply retry_loop_success; eassumption.
Qed.

(** When each of [times] runs of [io] in a row throws, [retry(times, io)]
    has run [io] exactly those [times] times and throws the error of the
    last one; [retry(0, io)] runs nothing and throws [undefined]. *)
Theorem retry_throws_last_error {A} (undefined : error) (io : IO U V A)
  times w rs w' :
  run_each times io w = (Ok rs, w') ->
  Forall threw rs ->
  (e <- retry undefined times io ;; run e) w
  = (Exn (last_error undefined rs), w').
Proof.
  intros Hrun Hrs.
  change ((e <- retry undefined times io ;; run e) w)
    with (retry_loop undefined times io None w).
  apply (retry_loop_exhausted undefined io times w rs w' None Hrun Hrs).
Qed.

Lemma run_all_app {A} (xs ys : list (IO U V A)) :
  forall w,
    run_all (xs ++ ys) w
    = (a <- run_all xs ;; b <- run_all ys ;; ret (a ++ b)) w.
Proof.
  induction xs as [|x xs IH]; intros w; cbn [app run_all].
  - unfold bind. cbn. destruct (run_all ys w) as [[b|e] w1]; reflexivity.
  - unfold bind.
    destruct (unsafePerformIO x w) as [[a|e] w1]; [|reflexivity].
    rewrite IH. unfold bind.
    destruct (run_all xs w1) as [[as'|e] w2]; cbn; [|reflexivity].
    destruct (run_all ys w2) as [[bs|e] w3]; reflexivity.
Qed.

(** [batch] of two rows of instances one after the other runs as the
    batch of the first row, then the batch of the second, and returns
    the two arrays of results joined. *)
Theorem batch_app {A} (xs ys : list (IO U V A)) w :
  (e <- batch (xs ++ ys) ;; run e) w
  = (e1 <- batch xs ;; e2 <- batch ys ;;
     a <- run e1 ;; b <- run e2 ;; ret (a ++ b)) w.
Proof.
  change ((e <- batch (xs ++ ys) ;; run e) w) with (run_all (xs ++ ys) w).
  rewrite run_all_app. reflexivity.
Qed.

(** A [batch] that returns has one result for each instance. *)
Theorem batch_length {A} (ios : list (IO U V A)) w rs w' :
  (e <- batch ios ;; run e) w = (Ok rs, w') -> length rs = length ios.
Proof.
  change ((e <- batch ios ;; run e) w) with (run_all ios w).
  revert w rs w'. induction ios as [|io ios IH]; intros w rs w' H; cbn in H.
  - inversion H. reflexivity.
  - unfold bind in H.
    destruct (unsafePerformIO io w) as [[a|e] w1]; [|discriminate].
    destruct (run_all ios w1) as [[rest|e] w2] eqn:E; [|discriminate].
    inversion H; subst. cbn. f_equal. eapply IH; exact E.
Qed.

(** When the instances before one all return and that one throws, the
    [batch] throws its error from the world it left: the instances after
    it are not run. *)
Theorem batch_stops_at_throw {A} (pre post : list (IO U V A)) (io : IO U V A)
  w rs w1 e w2 :
  (b <- batch pre ;; run b) w = (Ok rs, w1) ->
  run io w1 = (Exn e, w2) ->
  (b <- batch (pre ++ io :: post) ;; run b) w = (Exn e, w2).
Proof.
  change ((b <- batch pre ;; run b) w) with (run_all pre w).
  change ((b <- batch (pre ++ io :: post) ;; run b) w)
    with (run_all (pre ++ io :: post) w).
  intros Hpre Hio. rewrite run_all_app. unfold bind at 1. rewrite Hpre.
  unfold bind at 1. cbn [run_all]. unfold bind at 1.
  unfold run in Hio. rewrite Hio. reflexivity.
Qed.

(** [chain] of readers hands the environment it is run in to both
    readers, and is associative. *)
Theorem reader_chain_assoc {Env A B C} (r : ReaderIO U V Env A)
  (f : A -> M (world U V) (ReaderIO U V Env B))
  (g : B -> M (world U V) (ReaderIO U V Env C)) env w :
  reader_run (reader_chain (reader_chain r f) g) env w
  = reader_run
      (reader_chain r (fun x => r1 <- f x ;; ret (reader_chain r1 g))) env w
  /\ forall (r2 : ReaderIO U V Env B),
       reader_run
         (reader_chain r
            (fun a => ret (reader_map r2 (fun b => ret (a, b))))) env w
       = (a <- reader_run r env ;; b <- reader_run r2 env ;; ret (a, b)) w.
Proof.
  split.
  - cbn. unfold bind.
    destruct (reader_run r env w) as [[a|e] w1]; [|reflexivity].
    destruct (f a w1) as [[r1|e] w2]; reflexivity.
  - intros r2. cbn. unfold bind.
    destruct (reader_run r env w) as [[a|e] w1]; [|reflexivity].
    cbn. reflexivity.
Qed.

End Laws.

(** Witnesses on the counter of a test. *)

Lemma error_skips_map_and_chain_witness :
  (e1 <- map (mkIO tick_throw) (fun n : nat => ret (n + 1)) ;;
   e2 <- chain e1 (fun n => IO_of n) ;; run e2) w0
  = (Exn (Error "boom"), {| ext := 1; cells := cells w0 |}).
Proof.
  apply (error_skips_map_and_chain (mkIO tick_throw)). reflexivity.
Defined.

Lemma composeIO_runs_both_in_order_witness :
  (c <- composeIO (mkIO (tick_throw (A := nat))) (mkIO tick) ;; run c) w0
  = (Exn (Error "boom"), {| ext := 1; cells := cells w0 |}).
Proof.
  apply (proj2 (composeIO_runs_both_in_order
                  (mkIO (tick_throw (A := nat))) (mkIO tick) w0)).
  reflexivity.
Defined.

(** Two throws and then a return, within three tries. *)
Lemma retry_returns_first_success_witness :
  (e <- retry RangeError 3 (mkIO (fails_until 2)) ;; run e) w0
  = (Ok 3, {| ext := 3; cells := cells w0 |}).
Proof.
  apply (retry_returns_first_success RangeError (mkIO (fails_until 2)) 3 2 w0
           [Exn (Error "not yet"); Exn (Error "not yet")]).
  - lia.
  - reflexivity.
  - repeat constructor.
Defined.

(** Three tries of an operation that needs five. *)
Lemma retry_throws_last_error_witness :
  (e <- retry RangeError 3 (mkIO (fails_until 5)) ;; run e) w0
  = (Exn (Error "not yet"), {| ext := 3; cells := cells w0 |}).
Proof.
  apply (retry_throws_last_error RangeError (mkIO (fails_until 5)) 3 w0
           [Exn (Error "not yet"); Exn (Error "not yet");
            Exn (Error "not yet")]).
  - reflexivity.
  - repeat constructor.
Defined.

Lemma batch_length_witness :
  length [1; 2] = length [mkIO (V := nat) tick; mkIO tick].
Proof.
  apply (batch_length [mkIO tick; mkIO tick] w0 [1; 2]
           {| ext := 2; cells := cells w0 |}).
  reflexivity.
Defined.

Lemma batch_stops_at_throw_witness :
  (b <- batch ([mkIO tick] ++ mkIO tick_throw :: [mkIO tick]) ;; run b) w0
  = (Exn (Error "boom"), {| ext := 2; cells := cells w0 |}).
Proof.
  apply (batch_stops_at_throw [mkIO tick] [mkIO tick] (mkIO tick_throw) w0
           [1] {| ext := 1; cells := cells w0 |}).
  - reflexivity.
  - reflexivity.
Defined.

End IOUtilsLaws.

(** ** The middleware guide *)

Module GuideLaws.

Import Redux MiddlewareGuide ReduxLaws.

Section Laws.

Context {State : Type}.

Implicit Types c : container State.
Implicit Types store : api State.
Implicit Types a : value State.

(** [compose] of functions listed one after the other is the composition
    of the two [compose]s, and the guide's [chain] is an onion: both
    Before lines, then [next] with the action as it is, and when [next]
    has returned both After lines, the inner one first, and the result
    of [next]; an error of [next] passes through. *)
Theorem compose_onion :
  (forall X (fs gs : list (X -> X)) (x : X),
      compose (fs ++ gs) x = compose fs (compose gs x))
  /\ (forall (next : dispatchFn State) a c,
        chain next a c
        = match next a (add_lines [[LStr "Before 1"]; [LStr "Before 2"]] c)
          with
          | (Ok r, c2) =>
              (Ok r, add_lines [[LStr "After 2"]; [LStr "After 1"]] c2)
          | (Exn e, c2) => (Exn e, c2)
          end).
Proof.
  split.
  - intros X fs gs x. unfold compose. apply fold_right_app.
  - intros next a c. unfold chain, compose, middleware1, middleware2.
    cbn [fold_right]. unfold bind, console_log, modify, ret.
    unfold add_console, add_lines; cbn.
    rewrite <- app_assoc. cbn [app].
    destruct (next a _) as [[r|e] c2]; [|reflexivity].
    cbn. rewrite <- app_assoc. reflexivity.
Qed.

Lemma conditionalMiddleware_pure (p : value State -> State -> bool)
  (m : middleware State) store (next : dispatchFn State) a c :
  getState store = container_getState ->
  conditionalMiddleware (fun a s => ret (p a s)) m store next a c
  = if p a (state c) then m store next a c else next a c.
Proof.
  intros Hg. unfold conditionalMiddleware. rewrite Hg.
  unfold bind, container_getState, get, ret; cbn.
  destruct (p a (state c)); reflexivity.
Qed.

(** A container whose first middleware is the logger under a condition
    on the action and the state, as the guide's [devLogger]: a dispatch
    for which the condition holds is the dispatch of the container with
    the logger, one for which it does not is the dispatch of the
    container without it. *)
Theorem conditionalMiddleware_switch (p : value State -> State -> bool)
  reducer depth a c :
  isDispatching c = false ->
  container_dispatch
    {| reducer := reducer;
       middlewares :=
         [conditionalMiddleware (fun a s => ret (p a s)) loggerMiddleware;
          asyncMiddleware] |} (S depth) a c
  = if p a (state c)
    then container_dispatch
           {| reducer := reducer;
              middlewares := [loggerMiddleware; asyncMiddleware] |}
           (S depth) a c
    else container_dispatch
           {| reducer := reducer; middlewares := [asyncMiddleware] |}
           (S depth) a c.
Proof.
  intros Hc.
  set (cfgC := {| reducer := reducer;
                  middlewares := [conditionalMiddleware _ _; _] |}).
  set (cfgL := {| reducer := reducer;
                  middlewares := [loggerMiddleware; asyncMiddleware] |}).
  set (cfgA := {| reducer := reducer; middlewares := [asyncMiddleware] |}).
  rewrite (container_dispatch_idle cfgC depth a c Hc).
  rewrite (container_dispatch_idle cfgL depth a c Hc).
  rewrite (container_dispatch_idle cfgA depth a c Hc).
  unfold finally.
  cbn [middlewares cfgC cfgL cfgA applyMiddleware List.map fold_left].
  set (c1 := set_isDispatching true c).
  assert (Hc1 : isDispatching c1 = true) by reflexivity.
  rewrite conditionalMiddleware_pure by reflexivity.
  change (state c1) with (state c).
  destruct (p a (state c)).
  - rewrite !loggerMiddleware_unfold by reflexivity.
    rewrite (async_link_guarded_eq (store_of cfgC depth) (store_of cfgL depth))
      by (try apply store_of_guarded; reflexivity).
    reflexivity.
  - rewrite (async_link_guarded_eq (store_of cfgC depth) (store_of cfgA depth))
      by (try apply store_of_guarded; exact Hc1).
    reflexivity.
Qed.

End Laws.

(** The store of the demo with its logger only for commands that are
    not functions, at an increment. *)
Lemma conditionalMiddleware_switch_witness :
  container_dispatch
    {| reducer := fun s a => Demo.rootReducer (Some s) a;
       middlewares :=
         [conditionalMiddleware
            (fun a _ =>
               ret match a with Function _ => false | _ => true end)
            loggerMiddleware;
          asyncMiddleware] |} 2 Demo.increment Demo.storeContainer
  = container_dispatch Demo.storeConfig 2 Demo.increment Demo.storeContainer.
Proof.
  apply (conditionalMiddleware_switch
           (fun a _ => match a with Function _ => false | _ => true end)
           (fun s a => Demo.rootReducer (Some s) a) 1 Demo.increment
           Demo.storeContainer).
  reflexivity.
Defined.

End GuideLaws.

(** ** The counter and its store *)

Module CounterLaws.

Import Redux Demo Counter ReduxLaws DemoLaws.

(** Evaluation of a dispatch on the store at a known container. *)
Ltac run_store :=
  unfold store_at; lazy -[app Z.add Z.sub String.eqb];
  repeat rewrite <- app_assoc; try reflexivity.

Lemma dispatch_object_at depth t s lines ts :
  exists s',
    result_of (rootReducer (Some s) (Object t)) = Some s'
    /\ container_dispatch storeConfig (S depth) (Object t)
         (store_at s lines ts)
       = (Ok (NewState s'),
          store_at s'
            (lines ++ logger_entry_lines (Object t) s
               ++ [ [LStr "Reducer called with action:"; LValue (Object t)];
                    [LStr "Store updated! Current state:"; LState s'] ]
               ++ logger_exit_lines s')
            ts).
Proof. eexists. split; [reflexivity|]. run_store. Qed.

Lemma dispatch_thunk_at depth s lines ts :
  container_dispatch storeConfig (S depth) incrementAsyncThunk
    (store_at s lines ts)
  = (Ok Undefined,
     store_at s
       (lines ++ logger_entry_lines incrementAsyncThunk s
          ++ [ [LStr "Async Middleware🍌:"; LStore; LNext;
                LValue incrementAsyncThunk];
               [LStr "Async Middleware: 检测到函数action，执行异步操作"];
               [LStr "当前状态:"; LState s] ]
          ++ logger_exit_lines s)
       (ts ++ [(1000, timer_callback)])).
Proof. run_store. Qed.

Lemma fire_timer_at depth s lines ms ts :
  exists lines',
    fire_timer (store_of storeConfig (S depth))
      (store_at s lines ((ms, timer_callback) :: ts))
    = (Ok tt, store_at (incremented s) (lines ++ lines') ts).
Proof. eexists. run_store. Qed.

Lemma fire_timer_none depth s lines :
  fire_timer (store_of storeConfig (S depth)) (store_at s lines [])
  = (Ok tt, store_at s lines []).
Proof. reflexivity. Qed.

(** A dispatch of an object to the store, in full: the state the root
    reducer returns, the subscriber told once, and on the console the
    logger's entry lines, the reducer's line, the subscriber's line with
    the new state and the logger's exit lines with it. *)
Theorem store_dispatch_object depth t s lines ts :
  exists s',
    result_of (rootReducer (Some s) (Object t)) = Some s'
    /\ container_dispatch storeConfig (S depth) (Object t)
         (store_at s lines ts)
       = (Ok (NewState s'),
          store_at s'
            (lines ++ logger_entry_lines (Object t) s
               ++ [ [LStr "Reducer called with action:"; LValue (Object t)];
                    [LStr "Store updated! Current state:"; LState s'] ]
               ++ logger_exit_lines s')
            ts).
Proof. apply dispatch_object_at. Qed.


Lemma has_type_eq t a : has_type t a = true -> a = Object (Some t).
Proof.
  destruct a as [[t'|]|s|b]; cbn; try discriminate.
  intros H. apply String.eqb_eq in H. congruence.
Qed.

(** After any command the store is idle again. *)
Lemma store_dispatch_idle depth a c :
  isDispatching c = false ->
  isDispatching (snd (container_dispatch storeConfig (S depth) a c)) = false.
Proof.
  intros Hc. destruct (is_function a) eqn:Hf.
  - destruct a as [t|s|body]; try discriminate.
    apply (store_dispatch_function depth body c Hc).
  - destruct (rootReducer_result (Some (state c)) a) as (c' & a' & _ & _ & E).
    apply (store_dispatch_plain depth a c _ Hc Hf E).
Qed.

Lemma dispatch_all_app {S} (store : api S) xs ys c :
  snd (dispatch_all store (xs ++ ys) c)
  = snd (dispatch_all store ys (snd (dispatch_all store xs c))).
Proof.
  revert c. induction xs as [|x xs IH]; intros c; [reflexivity|].
  cbn [app dispatch_all]. unfold bind, attempt.
  destruct (dispatch store x c) as [r c1]. apply IH.
Qed.

Lemma dispatch_all_idle depth actions :
  forall c,
    isDispatching c = false ->
    isDispatching (snd (dispatch_all (store_of storeConfig (S depth))
                          actions c)) = false.
Proof.
  induction actions as [|a rest IH]; intros c Hc; [exact Hc|].
  cbn [dispatch_all]. unfold bind at 1, attempt. cbn [store_of dispatch].
  pose proof (store_dispatch_idle depth a c Hc) as H.
  destruct (container_dispatch storeConfig (S depth) a c) as [r c1].
  apply IH. exact H.
Qed.

Lemma occurrences_cons t a rest :
  occurrences t (a :: rest)
  = ((if has_type t a then 1 else 0) + occurrences t rest)%Z.
Proof.
  unfold occurrences. cbn [List.filter]. destruct (has_type t a); cbn [length]; lia.
Qed.

Lemma count_net_aux depth actions :
  forall c,
    isDispatching c = false ->
    Forall (fun a => has_type INCREMENT a || has_type DECREMENT a = true)
           actions ->
    CounterReducer.count
      (counter (state (snd (dispatch_all (store_of storeConfig (S depth))
                              actions c))))
    = (CounterReducer.count (counter (state c))
       + occurrences INCREMENT actions - occurrences DECREMENT actions)%Z.
Proof.
  induction actions as [|a rest IH]; intros c Hc Hall.
  - cbn. unfold occurrences. cbn. lia.
  - inversion Hall as [|? ? Ha Hrest]; subst.
    cbn [dispatch_all]. unfold bind at 1, attempt. cbn [store_of dispatch].
    apply orb_true_iff in Ha.
    rewrite !occurrences_cons.
    assert (Hstep :
      exists s',
        result_of (rootReducer (Some (state c)) a) = Some s'
        /\ is_function a = false
        /\ CounterReducer.count (counter s')
           = (CounterReducer.count (counter (state c))
              + (if has_type INCREMENT a then 1 else 0)
              - (if has_type DECREMENT a then 1 else 0))%Z).
    { destruct Ha as [Ha|Ha]; apply has_type_eq in Ha; subst a.
      - exists (incremented (state c)). repeat split.
        change (has_type INCREMENT (Object (Some INCREMENT))) with true.
        change (has_type DECREMENT (Object (Some INCREMENT))) with false.
        cbn [incremented counter CounterReducer.count]. lia.
      - exists (decremented (state c)). repeat split.
        change (has_type INCREMENT (Object (Some DECREMENT))) with false.
        change (has_type DECREMENT (Object (Some DECREMENT))) with true.
        cbn [decremented counter CounterReducer.count]. lia. }
    destruct Hstep as (s' & Hs' & Hf & Hcount).
    destruct (store_dispatch_plain depth a c s' Hc Hf Hs') as (Hst & Hd & _).
    destruct (container_dispatch storeConfig (S depth) a c) as [r c1].
    cbn [snd] in *. rewrite (IH c1 Hd Hrest). rewrite Hst, Hcount. lia.
Qed.

Lemma occurrences_bounds t actions :
  (0 <= occurrences t actions <= Z.of_nat (length actions))%Z.
Proof.
  induction actions as [|a rest IH]; [unfold occurrences; cbn; lia|].
  rewrite occurrences_cons. cbn [length].
  destruct (has_type t a); lia.
Qed.

(** On the store, while the count stays among the safe integers (it
    starts at most as far from [MAX_SAFE_INTEGER] as there are
    commands), after a sequence of increment and decrement commands the
    count is the count before, plus the number of increments, minus the
    number of decrements, whatever the subscribers; it is a safe
    integer again. *)
Theorem count_is_net_of_increments depth actions c :
  isDispatching c = false ->
  Forall (fun a => has_type INCREMENT a || has_type DECREMENT a = true)
         actions ->
  (Z.abs (CounterReducer.count (counter (state c)))
   + Z.of_nat (length actions) <= MAX_SAFE_INTEGER)%Z ->
  CounterReducer.count
    (counter (state (snd (dispatch_all (store_of storeConfig (S depth))
                            actions c))))
  = (CounterReducer.count (counter (state c))
     + occurrences INCREMENT actions - occurrences DECREMENT actions)%Z
  /\ (Z.abs (CounterReducer.count
               (counter (state (snd (dispatch_all
                                       (store_of storeConfig (S depth))
                                       actions c)))))
      <= MAX_SAFE_INTEGER)%Z.
Proof.
  intros Hc Hall Hsafe.
  rewrite (count_net_aux depth actions c Hc Hall).
  split; [reflexivity|].
  pose proof (occurrences_bounds INCREMENT actions).
  pose proof (occurrences_bounds DECREMENT actions).
  lia.
Qed.

Lemma count_is_net_of_increments_witness :
  CounterReducer.count
    (counter (state (snd (dispatch_all (store_of storeConfig 2)
                            [increment; increment; decrement]
                            storeContainer))))
  = (CounterReducer.count (counter (state storeContainer))
     + occurrences INCREMENT [increment; increment; decrement]
     - occurrences DECREMENT [increment; increment; decrement])%Z
  /\ (Z.abs (CounterReducer.count
               (counter (state (snd (dispatch_all (store_of storeConfig 2)
                                       [increment; increment; decrement]
                                       storeContainer)))))
      <= MAX_SAFE_INTEGER)%Z.
Proof.
  apply (count_is_net_of_increments 1 [increment; increment; decrement]
           storeContainer).
  - reflexivity.
  - repeat constructor.
  - vm_compute. discriminate.
Defined.

(** A reset forgets what came before it: after any commands, a reset and
    then increments and decrements, no more of them than
    [MAX_SAFE_INTEGER], the count is the number of those increments
    minus the number of those decrements, a safe integer. *)
Theorem reset_forgets depth pre post c :
  isDispatching c = false ->
  Forall (fun a => has_type INCREMENT a || has_type DECREMENT a = true) post ->
  (Z.of_nat (length post) <= MAX_SAFE_INTEGER)%Z ->
  CounterReducer.count
    (counter (state (snd (dispatch_all (store_of storeConfig (S depth))
                            (pre ++ reset :: post) c))))
  = (occurrences INCREMENT post - occurrences DECREMENT post)%Z
  /\ (Z.abs (occurrences INCREMENT post - occurrences DECREMENT post)
      <= MAX_SAFE_INTEGER)%Z.
Proof.
  intros Hc Hpost Hsafe.
  split.
  - rewrite dispatch_all_app.
    pose proof (dispatch_all_idle depth pre c Hc) as Hc1.
    set (c1 := snd (dispatch_all (store_of storeConfig (S depth)) pre c)) in *.
    cbn [dispatch_all]. unfold bind at 1, attempt. cbn [store_of dispatch].
    destruct (store_dispatch_plain depth reset c1 _ Hc1 eq_refl eq_refl)
      as (Hst & Hd & _).
    destruct (container_dispatch storeConfig (S depth) reset c1) as [r c2].
    cbn [snd] in *.
    rewrite (count_net_aux depth post c2 Hd Hpost).
    rewrite Hst. cbn. lia.
  - pose proof (occurrences_bounds INCREMENT post).
    pose proof (occurrences_bounds DECREMENT post).
    lia.
Qed.

Lemma reset_forgets_witness :
  CounterReducer.count
    (counter (state (snd (dispatch_all (store_of storeConfig 2)
                            ([increment; increment] ++ reset :: [decrement])
                            storeContainer))))
  = (occurrences INCREMENT [decrement] - occurrences DECREMENT [decrement])%Z
  /\ (Z.abs (occurrences INCREMENT [decrement]
             - occurrences DECREMENT [decrement])
      <= MAX_SAFE_INTEGER)%Z.
Proof.
  apply (reset_forgets 1 [increment; increment] [decrement] storeContainer).
  - reflexivity.
  - repeat constructor.
  - vm_compute. discriminate.
Defined.

Lemma counterReducer_loading s a :
  exists s',
    result_of (counterReducer (Some s) a) = Some s'
    /\ (CounterReducer.loading s = true -> CounterReducer.loading s' = true)
    /\ (has_type INCREMENT_ASYNC a = false ->
        CounterReducer.loading s' = CounterReducer.loading s).
Proof.
  eexists. split; [reflexivity|].
  destruct a as [[t|]|str|b]; cbn; auto.
  unfold has_type, INCREMENT_ASYNC; cbn.
  destruct (String.eqb t "INCREMENT"); cbn; [auto|].
  destruct (String.eqb t "DECREMENT"); cbn; [auto|].
  destruct (String.eqb t "RESET"); cbn; [auto|].
  destruct (String.eqb t "INCREMENT_ASYNC"); cbn; [|auto].
  split; [reflexivity|discriminate].
Qed.

Lemma store_dispatch_loading depth a c :
  isDispatching c = false ->
  let c' := snd (container_dispatch storeConfig (S depth) a c) in
  isDispatching c' = false
  /\ (CounterReducer.loading (counter (state c)) = true ->
      CounterReducer.loading (counter (state c')) = true)
  /\ (has_type INCREMENT_ASYNC a = false ->
      CounterReducer.loading (counter (state c'))
      = CounterReducer.loading (counter (state c))).
Proof.
  intros Hc c'. subst c'. destruct (is_function a) eqn:Hf.
  - destruct a as [t|s|body]; try discriminate.
    destruct (store_dispatch_function depth body c Hc) as (Hs & Hd & _).
    rewrite Hs. auto.
  - destruct (rootReducer_result (Some (state c)) a)
      as (c1 & a1 & Hc1 & _ & E).
    destruct (store_dispatch_plain depth a c _ Hc Hf E) as (Hs & Hd & _).
    rewrite Hs. cbn [counter]. cbn [option_map] in Hc1.
    destruct (counterReducer_loading (counter (state c)) a)
      as (s' & Hs' & H1 & H2).
    rewrite Hs' in Hc1. inversion Hc1; subst. auto.
Qed.

Lemma loading_latch_aux depth actions :
  forall c,
    isDispatching c = false ->
    let c' := snd (dispatch_all (store_of storeConfig (S depth)) actions c) in
    (CounterReducer.loading (counter (state c)) = true ->
     CounterReducer.loading (counter (state c')) = true)
    /\ (Forall (fun a => has_type INCREMENT_ASYNC a = false) actions ->
        CounterReducer.loading (counter (state c'))
        = CounterReducer.loading (counter (state c))).
Proof.
  induction actions as [|a rest IH]; intros c Hc; cbn zeta.
  - split; auto.
  - cbn [dispatch_all]. unfold bind at 1 2, attempt. cbn [store_of dispatch].
    destruct (store_dispatch_loading depth a c Hc) as (Hd & H1 & H2).
    destruct (container_dispatch storeConfig (S depth) a c) as [r c1].
    cbn [snd] in *. destruct (IH c1 Hd) as [I1 I2]. split.
    + intros H. apply I1, H1, H.
    + intros Hall. inversion Hall as [|? ? Ha Hrest]; subst.
      rewrite (I2 Hrest). apply H2, Ha.
Qed.

(** On the store, [loading] is a latch: no command clears it, whatever
    is dispatched after it is set, and nothing sets it but a command of
    type INCREMENT_ASYNC. *)
Theorem loading_latch depth actions c :
  isDispatching c = false ->
  let c' := snd (dispatch_all (store_of storeConfig (S depth)) actions c) in
  (CounterReducer.loading (counter (state c)) = true ->
   CounterReducer.loading (counter (state c')) = true)
  /\ (Forall (fun a => has_type INCREMENT_ASYNC a = false) actions ->
      CounterReducer.loading (counter (state c'))
      = CounterReducer.loading (counter (state c))).
Proof. apply loading_latch_aux. Qed.

(** The latch at the store after the INCREMENT_ASYNC command: a reset
    and an increment leave [loading] set. *)
Lemma loading_latch_witness :
  let c := snd (container_dispatch storeConfig 2 incrementAsync
                  storeContainer) in
  let c' := snd (dispatch_all (store_of storeConfig 2) [reset; increment] c) in
  CounterReducer.loading (counter (state c)) = true
  /\ CounterReducer.loading (counter (state c')) = true
  /\ CounterReducer.loading (counter (state c'))
     = CounterReducer.loading (counter (state c)).
Proof.
  intros c c'.
  destruct (loading_latch 1 [reset; increment] c) as [Hset Hkeep].
  - vm_compute. reflexivity.
  - split; [vm_compute; reflexivity|]. split.
    + apply Hset. vm_compute. reflexivity.
    + apply Hkeep. repeat constructor.
Defined.

Lemma page_invariant_store_at c :
  page_invariant c ->
  c = store_at (state c) (console c) (timers c)
  /\ CounterReducer.loading (counter (state c)) = false
  /\ Forall (fun t => snd t = timer_callback) (timers c).
Proof.
  intros (Hd & Hl & Hload & Ht). destruct c as [s ls d k ts]; cbn in *.
  subst. repeat split; assumption.
Qed.

Lemma page_invariant_at s lines ts :
  CounterReducer.loading (counter s) = false ->
  Forall (fun t => snd t = timer_callback) ts ->
  page_invariant (store_at s lines ts).
Proof. intros H1 H2. repeat split; assumption. Qed.

Lemma handle_preserves depth e c :
  page_invariant c ->
  page_invariant (snd (handle (store_of storeConfig (S depth)) e c)).
Proof.
  intros Hinv.
  destruct (page_invariant_store_at c Hinv) as (Hc & Hload & Hts).
  rewrite Hc. set (s := state c) in *. set (k := console c). 
  set (ts := timers c) in *. clearbody s k ts. clear Hc Hinv c.
  assert (Hobj : forall t s',
             result_of (rootReducer (Some s) (Object t)) = Some s' ->
             CounterReducer.loading (counter s') = false ->
             page_invariant
               (snd ((attempt (dispatch (store_of storeConfig (S depth))
                                 (Object t)) ;; ret tt) (store_at s k ts)))).
  { intros t s' Hs' Hl'.
    destruct (dispatch_object_at depth t s k ts) as (s1 & Hs1 & Hrun).
    rewrite Hs' in Hs1. inversion Hs1; subst s1.
    unfold bind, attempt. cbn [store_of dispatch]. rewrite Hrun. cbn [snd ret].
    apply page_invariant_at; assumption. }
  destruct e; unfold handle; cbn [mapDispatchToProps].
  - apply (Hobj (Some INCREMENT) (incremented s)); [reflexivity|exact Hload].
  - apply (Hobj (Some DECREMENT) (decremented s)); [reflexivity|exact Hload].
  - eapply (Hobj (Some RESET)); [reflexivity|exact Hload].
  - unfold bind, attempt. cbn [store_of dispatch].
    rewrite dispatch_thunk_at. cbn [snd ret].
    apply page_invariant_at; [exact Hload|].
    apply Forall_app. split; [exact Hts|]. repeat constructor.
  - unfold bind, attempt.
    destruct ts as [|[ms cb] ts].
    + rewrite fire_timer_none. cbn [snd ret].
      apply page_invariant_at; assumption.
    + inversion Hts as [|? ? Hcb Hrest]; subst. cbn [snd] in Hcb. subst cb.
      destruct (fire_timer_at depth s k ms ts) as [lines' Hrun].
      rewrite Hrun. cbn [snd ret].
      apply page_invariant_at; [exact Hload|exact Hrest].
Qed.

Lemma handle_all_preserves depth es :
  forall c,
    page_invariant c ->
    page_invariant (snd (handle_all (store_of storeConfig (S depth)) es c)).
Proof.
  induction es as [|e es IH]; intros c Hinv; [exact Hinv|].
  cbn [handle_all]. unfold bind at 1.
  pose proof (handle_preserves depth e c Hinv) as H.
  assert (Hok : fst (handle (store_of storeConfig (S depth)) e c) = Ok tt).
  { unfold handle. destruct (mapDispatchToProps e) as [a|];
      unfold bind at 1, attempt.
    - destruct (dispatch (store_of storeConfig (S depth)) a c); reflexivity.
    - destruct (fire_timer (store_of storeConfig (S depth)) c); reflexivity. }
  destruct (handle (store_of storeConfig (S depth)) e c) as [r c1].
  cbn [fst snd] in *. subst r. apply IH. exact H.
Qed.

(** The component never shows the store as loading: from the store as
    created, after any clicks on the four buttons and any timers
    running out, the [loading] prop is false; no key of
    [mapDispatchToProps] dispatches the INCREMENT_ASYNC command. The
    store stays idle with its one subscriber, and every pending timer
    holds the increment callback. *)
Theorem component_never_loading depth es :
  let c' := snd (handle_all (store_of storeConfig (S depth)) es
                   storeContainer) in
  loading (mapStateToProps (state c')) = false
  /\ page_invariant c'.
Proof.
  assert (H : page_invariant
                (snd (handle_all (store_of storeConfig (S depth)) es
                        storeContainer))).
  { apply handle_all_preserves. repeat split. constructor. }
  split; [|exact H]. apply H.
Qed.

End CounterLaws.

(** ** The chain of responsibility *)

Module ChainLaws.

Import Chain.

Section Laws.

Context {Ctx R : Type}.

Implicit Types ms pre tail : list (middleware Ctx R).
Implicit Types st : frame.

Lemma frame_eta st : {| index := index st; console := console st |} = st.
Proof. destruct st; reflexivity. Qed.

(** At the end of the list [next] returns [undefined], whatever the
    depth. *)
Lemma next_at_end depth ms context st :
  length ms <= index st -> next depth ms context st = (Ok None, st).
Proof.
  intros H. destruct depth; cbn [next];
    destruct (Nat.ltb_spec (index st) (length ms)); try lia; reflexivity.
Qed.

(** Below it, [next] calls the middleware at [index]. *)
Lemma next_at depth ms context st m :
  nth_error ms (index st) = Some m ->
  next (S depth) ms context st
  = run_body (next depth ms context) (m context) (bump st).
Proof.
  intros H. cbn [next].
  assert (Hlt : index st < length ms)
    by (apply nth_error_Some; rewrite H; discriminate).
  destruct (Nat.ltb_spec (index st) (length ms)); [|lia].
  rewrite H. reflexivity.
Qed.

Lemma nth_error_middle pre (m : middleware Ctx R) tail :
  nth_error (pre ++ m :: tail) (length pre) = Some m.
Proof.
  rewrite nth_error_app2 by lia. rewrite Nat.sub_diag. reflexivity.
Qed.

(** A row of [around] middlewares: their first lines in order, then the
    rest of the list, then their second lines in reverse order. *)
Lemma next_around (ws : list (string * string)) :
  forall pre tail depth context st,
    index st = length pre ->
    length ws <= depth ->
    next depth (pre ++ List.map around ws ++ tail) context st
    = match next (depth - length ws) (pre ++ List.map around ws ++ tail)
              context
              {| index := index st + length ws;
                 console := console st ++ List.map fst ws |} with
      | (Ok r, st') =>
          (Ok r, {| index := index st';
                    console := console st' ++ rev (List.map snd ws) |})
      | (Exn e, st') => (Exn e, st')
      end.
Proof.
  induction ws as [|w ws IH]; intros pre tail depth context st Hi Hd.
  - cbn [List.map length rev app]. rewrite Nat.add_0_r, Nat.sub_0_r.
    rewrite app_nil_r, frame_eta.
    destruct (next depth (pre ++ tail) context st) as [[r|e] st'];
      [|reflexivity].
    rewrite app_nil_r, frame_eta. reflexivity.
  - destruct depth as [|d]; [cbn in Hd; lia|].
    cbn [List.map length] in *.
    rewrite (next_at d _ context st (around w))
      by (rewrite Hi; cbn [app]; apply nth_error_middle).
    cbn [around run_body]. unfold bind at 1, modify. unfold bind at 1.
    replace (pre ++ (around w :: List.map around ws) ++ tail)
      with ((pre ++ [around w]) ++ List.map around ws ++ tail)
      by (rewrite <- app_assoc; reflexivity).
    rewrite (IH (pre ++ [around w]) tail d context (say (fst w) (bump st)))
      by (cbn; rewrite ?length_app; cbn; lia).
    cbn [say bump index console Nat.sub].
    replace (S (index st) + length ws) with (index st + S (length ws)) by lia.
    rewrite <- (app_assoc (console st) [fst w] (List.map fst ws)).
    cbn [app].
    destruct (next (d - length ws) _ context _) as [[r|e] st'];
      [|reflexivity].
    cbn [run_body]. unfold bind, modify, ret, say. cbn [index console rev].
    rewrite app_assoc. reflexivity.
Qed.

(** A chain of [around] middlewares and then a handler that does not
    call [next]: [execute] logs the first lines in the order of [use],
    the handler's line, and the second lines in reverse order, and
    returns what the handler returned; the middlewares registered after
    the handler are not called. Without a handler, [execute] returns
    [undefined]; on an empty chain it does nothing. *)
Theorem chain_of_responsibility (ws : list (string * string)) line r
  (post : list (middleware Ctx R)) context lines :
  execute {| middlewares := List.map around ws ++ handler line r :: post |}
    context lines
  = (Ok r, lines ++ List.map fst ws ++ [line] ++ rev (List.map snd ws))
  /\ execute {| middlewares := List.map (@around Ctx R) ws |} context lines
     = (Ok None, lines ++ List.map fst ws ++ rev (List.map snd ws))
  /\ execute (@new_MiddlewareChain Ctx R) context lines = (Ok None, lines).
Proof.
  split; [|split].
  - assert (Hn : nth_error (List.map around ws ++ handler line r :: post)
                   (length ws) = Some (handler line r)).
    { rewrite <- (length_map (@around Ctx R) ws). apply nth_error_middle. }
    unfold execute. cbn [middlewares].
    rewrite (next_around ws [] (handler line r :: post) _ context
               {| index := 0; console := lines |} eq_refl)
      by (cbn; rewrite length_app, length_map; lia).
    cbn [app index console Nat.add].
    rewrite length_app, length_map. cbn [length].
    replace (length ws + S (length post) - length ws) with (S (length post))
      by lia.
    rewrite (next_at (length post)
               (List.map around ws ++ handler line r :: post) context
               {| index := length ws;
                  console := lines ++ List.map fst ws |}
               (handler line r) Hn).
    cbn. rewrite <- !app_assoc. reflexivity.
  - unfold execute. cbn [middlewares].
    pose proof (next_around ws [] [] (length (List.map (@around Ctx R) ws))
                  context {| index := 0; console := lines |} eq_refl) as H.
    rewrite app_nil_r in H. cbn [app] in H. rewrite H
      by (rewrite length_map; lia).
    rewrite next_at_end by (cbn; rewrite length_map; lia).
    cbn. rewrite <- app_assoc. reflexivity.
  - reflexivity.
Qed.

(** A middleware that calls [next] twice does not run its successor
    twice: the second call runs the middleware after the successor. *)
Theorem next_twice_advances a ra b rb (post : list (middleware Ctx R))
  context lines :
  execute
    {| middlewares := twice :: handler a ra :: handler b rb :: post |}
    context lines
  = (Ok rb, lines ++ [a; b]).
Proof.
  unfold execute. cbn [middlewares length].
  lazy -[app]. rewrite <- app_assoc. reflexivity.
Qed.

Lemma run_body_agree (nxt1 nxt2 : M frame (option R)) (i : nat) (b : body R) :
  (forall st, i <= index st ->
              nxt1 st = nxt2 st /\ index st <= index (snd (nxt1 st))) ->
  forall st, i <= index st ->
    run_body nxt1 b st = run_body nxt2 b st
    /\ index st <= index (snd (run_body nxt1 b st)).
Proof.
  intros Hn. induction b as [r|e|line k IH|k IH]; intros st Hi; cbn [run_body].
  - split; reflexivity.
  - split; reflexivity.
  - unfold bind, modify. apply (IH (say line st)). exact Hi.
  - unfold bind. destruct (Hn st Hi) as [E Hm]. rewrite <- E.
    destruct (nxt1 st) as [[r|e] st1]; cbn [snd] in *.
    + destruct (IH r st1) as [E1 Hm1]; [lia|]. split; [exact E1|lia].
    + split; [reflexivity|exact Hm].
Qed.

Lemma next_depth_enough ms context d1 :
  forall d2 st,
    length ms - index st <= d1 ->
    length ms - index st <= d2 ->
    next d1 ms context st = next d2 ms context st
    /\ index st <= index (snd (next d1 ms context st)).
Proof.
  induction d1 as [|d1 IH]; intros d2 st H1 H2.
  - rewrite !next_at_end by lia. split; reflexivity.
  - destruct (Nat.ltb_spec (index st) (length ms)) as [Hlt|Hge].
    + destruct d2 as [|d2]; [lia|].
      destruct (nth_error ms (index st)) as [m|] eqn:E.
      * rewrite !(next_at _ ms context st m E).
        destruct (run_body_agree (next d1 ms context) (next d2 ms context)
                    (S (index st)) (m context)) with (st := bump st)
          as [Eq Hm].
        -- intros st' Hst'. apply IH; lia.
        -- cbn. lia.
        -- split; [exact Eq|]. cbn [bump index] in Hm. lia.
      * apply nth_error_None in E. lia.
    + rewrite !next_at_end by lia. split; reflexivity.
Qed.

(** [execute] needs no deeper nesting of [next] than there are
    middlewares, since every call of [next] moves [index] on: under any
    bound on the nesting from that number on, it returns the same and
    logs the same. *)
Theorem execute_depth_suffices (this : MiddlewareChain Ctx R) context lines
  depth :
  length (middlewares this) <= depth ->
  next depth (middlewares this) context {| index := 0; console := lines |}
  = next (length (middlewares this)) (middlewares this) context
      {| index := 0; console := lines |}.
Proof.
  intros H. apply next_depth_enough; cbn; lia.
Qed.

End Laws.

Lemma execute_depth_suffices_witness :
  next 5 [around ("in", "out"); handler "handled" (Some 1)] tt
    {| index := 0; console := [] |}
  = next 2 [around ("in", "out"); handler "handled" (Some 1)] tt
      {| index := 0; console := [] |}.
Proof.
  apply (execute_depth_suffices
           {| middlewares := [around ("in", "out"); handler "handled" (Some 1)] |}
           tt [] 5).
  cbn. lia.
Defined.

End ChainLaws.
